(** * daisy/client_scheduler.py: the worker-side client of the Daisy scheduler

    A shallow embedding of [ClientScheduler] and the properties its
    specification states about it. *)

From Stdlib Require Import ZArith String Ascii List Lia Bool.
From stdpp Require Import base gmap strings list.
From Equations Require Import Equations.
Import ListNotations.

Local Open Scope string_scope.
Local Open Scope list_scope.

(** ** The wire protocol interface ([daisy/tcp.py]) *)

Module tcp.

(** Modelled from the spec: the message kinds of the wire protocol; the
    module [tcp.py] that declares [SchedulerMessageType] is not among the
    sources. *)
Inductive SchedulerMessageType :=
| NEW_BLOCK
| TERMINATE_WORKER
| WORKER_GET_BLOCK
| WORKER_RET_BLOCK
| WORKER_EXITING.

(** Modelled from the spec: the [ReturnCode] enum [{SUCCESS, ERROR}]. *)
Inductive ReturnCode := SUCCESS | ERROR.

End tcp.
Import tcp.


(** ** Python values that travel through the client *)

(** Modelled from the spec: a [Block] is an opaque unit of work identified by
    its [block_id]; the class lives in [daisy/block.py], outside the
    sources, and whatever else it holds is kept as an uninterpreted
    content. *)
Record Block := mkBlock { block_id : Z; block_content : string }.

(** The objects the client stores, sends and logs: [None], strings,
    integers, blocks, return codes and pairs of these. *)
Inductive pyobj :=
| PyNone
| PyStr (s : string)
| PyInt (n : Z)
| PyBlock (b : Block)
| PyReturnCode (rc : ReturnCode)
| PyTuple (fst_item snd_item : pyobj).

Definition is_None (x : pyobj) : bool :=
  match x with PyNone => true | _ => false end.

Definition is_Block (x : pyobj) : bool :=
  match x with PyBlock _ => true | _ => false end.

(** [SchedulerMessage(type, data=None)]. *)
Record SchedulerMessage := mkMessage {
  type : SchedulerMessageType;
  data : pyobj
}.

(** A tornado [IOStream], as a token. *)
Inductive IOStream := mkIOStream (fd : nat).

(** The exceptions that the constructor raises. ([sys.exit] is an event
    and a place of the caller, see [EvExit] and [Exited] below.) *)
Inductive exn :=
| KeyError (key : string)
| ValueError.

(** ** Effects *)

Inductive level := LDebug | LInfo | LWarning | LError.

(** A call of [logger.<level>(msg, *args)]; a [str.format] message keeps
    its template and the formatted objects as [args]. *)
Record LogRecord := mkLog {
  levelname : level;
  msg : string;
  args : list pyobj
}.

(** What the client does to the outside, in the order it does it. *)
Inductive event :=
| EvLog (r : LogRecord)
| EvConnect (addr port : string) (timeout : Z)
    (* await TCPClient().connect(addr, port, timeout=...) *)
| EvSleep (millis : Z)
    (* asyncio.sleep(1) is EvSleep 1000, time.sleep(.1) is EvSleep 100 *)
| EvSpawnSend (m : SchedulerMessage)
    (* ioloop.spawn_callback(self.async_send, pack_message(m)) *)
| EvAppend (x : pyobj)
    (* self.job_queue.append(x); self.job_queue_cv.notify() *)
| EvReturn (x : pyobj)
    (* acquire_block returns x to the user code *)
| EvExit (code : Z).
    (* sys.exit(code) *)

Definition sent (t : list event) : list SchedulerMessage :=
  omap (fun e => match e with EvSpawnSend m => Some m | _ => None end) t.

Definition appended (t : list event) : list pyobj :=
  omap (fun e => match e with EvAppend x => Some x | _ => None end) t.

Definition returned (t : list event) : list pyobj :=
  omap (fun e => match e with EvReturn x => Some x | _ => None end) t.

Definition logged (t : list event) : list LogRecord :=
  omap (fun e => match e with EvLog r => Some r | _ => None end) t.

Definition connects (t : list event) : list (string * string * Z) :=
  omap (fun e => match e with EvConnect a p d => Some (a, p, d) | _ => None end) t.

Definition sleeps (t : list event) : list Z :=
  omap (fun e => match e with EvSleep d => Some d | _ => None end) t.

Definition exits (t : list event) : list Z :=
  omap (fun e => match e with EvExit c => Some c | _ => None end) t.

(** ** [str.split(sep)] *)

(** Python's [s.split(sep)] for a one-character separator: every
    occurrence of [sep] cuts, empty fields are kept, and the result is
    never empty. *)
Fixpoint str_split (sep : ascii) (s : string) : list string :=
  match s with
  | EmptyString => [EmptyString]
  | String c rest =>
      if Ascii.eqb c sep then EmptyString :: str_split sep rest
      else match str_split sep rest with
           | w :: ws => String c w :: ws
           | [] => [String c EmptyString]
           end
  end.

(** [sep in s]. *)
Fixpoint str_contains (sep : ascii) (s : string) : bool :=
  match s with
  | EmptyString => false
  | String c rest => Ascii.eqb c sep || str_contains sep rest
  end.

Definition colon : ascii := ":"%char.

(** ** The client object *)

Record ClientScheduler := mkClient {
  connected : bool;
  error_state : bool;
  stream : option IOStream;
  sched_addr : string;
  sched_port : string;
  task_id : string;
  job_queue : list pyobj
}.

Definition set_stream (v : option IOStream) (self : ClientScheduler) :=
  mkClient (connected self) (error_state self) v (sched_addr self)
           (sched_port self) (task_id self) (job_queue self).

Definition set_error_state (v : bool) (self : ClientScheduler) :=
  mkClient (connected self) v (stream self) (sched_addr self)
           (sched_port self) (task_id self) (job_queue self).

Definition set_connected (v : bool) (self : ClientScheduler) :=
  mkClient v (error_state self) (stream self) (sched_addr self)
           (sched_port self) (task_id self) (job_queue self).

Definition set_job_queue (v : list pyobj) (self : ClientScheduler) :=
  mkClient (connected self) (error_state self) (stream self) (sched_addr self)
           (sched_port self) (task_id self) v.

(** The two execution contexts of a client: the coroutine that the
    constructor schedules on the event loop, and the thread of the user
    code that calls the constructor and then the API. *)
Inductive io_pc :=
| IoScheduled       (* add_callback(self._start) done, _start not yet run *)
| IoReceiving       (* in async_recv, awaiting get_and_unpack_message *)
| IoConnectFailed   (* _start returned after _connect_with_retry gave None *)
| IoRecvExited      (* async_recv ran to its end *)
| IoCrashed.        (* an exception other than StreamClosedError left async_recv *)

Inductive caller_pc :=
| InitLoopHead      (* __init__, at `while not self.connected` *)
| InitSleep         (* __init__, in time.sleep(.1), then `if self.error_state` *)
| Ready             (* the constructor returned; no API call in progress *)
| AcquireWait       (* acquire_block, at `while len(self.job_queue) == 0` *)
| Exited (code : Z). (* sys.exit(code) was called *)

Record System := mkSystem {
  self : ClientScheduler;
  io : io_pc;
  caller : caller_pc;
  trace : list event
}.

Definition log_event (lv : level) (m : string) (a : list pyobj) : event :=
  EvLog (mkLog lv m a).

(** ** [send] (lines 182-184) *)

(** [self.ioloop.spawn_callback(self.async_send, pack_message(data))]:
    the message is handed to the event loop and the caller goes on. *)
Definition send (data : SchedulerMessage) : list event :=
  [EvSpawnSend data].

(** ** [_connect_with_retry] (lines 128-145) *)

(** How one [await TCPClient().connect(...)] ends: with a stream, or with
    an exception (a refused connection, the 60 second timeout). *)
Inductive connect_outcome :=
| ConnectOk (s : IOStream)
| ConnectException.

(** The loop of [_connect_with_retry], entered with [counter] failures
    behind it. Every failed attempt adds one to [counter], so the attempt
    made at [counter] is attempt number [counter] (from 0) and
    [outcomes counter] is how it ends. The loop has no bound of its own
    ([while True]); it stops because [counter] passes 10. *)
Equations? connect_loop (addr port : string)
    (outcomes : nat -> connect_outcome) (counter : nat)
    : option IOStream * list event by wf (11 - counter) lt :=
  connect_loop addr port outcomes counter with outcomes counter => {
    | ConnectOk s => (Some s, [EvConnect addr port 60]);
    | ConnectException with gt_dec (counter + 1) 10 => {
        | left _ =>
            (None, [EvConnect addr port 60;
                    log_event LDebug "TCP connect error, retry..." [];
                    log_event LDebug "Timeout, quitting." []]);
        | right _ =>
            let r := connect_loop addr port outcomes (counter + 1) in
            (r.1, [EvConnect addr port 60;
                   log_event LDebug "TCP connect error, retry..." [];
                   EvSleep 1000] ++ r.2) } }.
Proof. lia. Qed.

Definition _connect_with_retry (self : ClientScheduler)
    (outcomes : nat -> connect_outcome) : option IOStream * list event :=
  connect_loop (sched_addr self) (sched_port self) outcomes 0.

(** ** [async_recv] (lines 147-172) *)

(** How one [await get_and_unpack_message(self.stream)] ends. *)
Inductive recv_outcome :=
| RecvMessage (m : SchedulerMessage)
| RecvStreamClosedError
| RecvOtherException.

(** How the [while True] loop of [async_recv] stands once the outcomes at
    hand are used up. *)
Inductive loop_exit :=
| Awaiting     (* back at the await, no outcome left to look at *)
| Break        (* left by one of the two [break]s *)
| Propagated.  (* left by an exception that no clause catches *)

(** The [while True] loop (lines 149-167) over the outcomes [inbound] of
    its successive reads. Nothing is read after a [break] or an uncaught
    exception. *)
Fixpoint async_recv_loop (self : ClientScheduler) (inbound : list recv_outcome)
    : ClientScheduler * list event * loop_exit :=
  match inbound with
  | [] => (self, [], Awaiting)
  | RecvMessage m :: rest =>
      let received := log_event LDebug "Received {}" [data m] in
      match type m with
      | NEW_BLOCK =>
          let block := data m in
          let self := set_job_queue (job_queue self ++ [block]) self in
          let '(self', evs, ex) := async_recv_loop self rest in
          (self', received :: EvAppend block :: evs, ex)
      | TERMINATE_WORKER =>
          (self, received :: send (mkMessage WORKER_EXITING PyNone), Break)
      | _ =>
          let '(self', evs, ex) := async_recv_loop self rest in
          (self', received :: evs, ex)
      end
  | RecvStreamClosedError :: _ =>
      (self,
       [log_event LError "Unexpected loss of connection to scheduler!" []],
       Break)
  | RecvOtherException :: _ => (self, [], Propagated)
  end.

(** [async_recv]: the loop, and after a [break] the final append of
    [None] (lines 169-172). It returns the object, what was done, and
    where the coroutine stands. *)
Definition async_recv (self : ClientScheduler) (inbound : list recv_outcome)
    : ClientScheduler * list event * io_pc :=
  let '(self, evs, ex) := async_recv_loop self inbound in
  match ex with
  | Awaiting => (self, evs, IoReceiving)
  | Break =>
      (* all done, notify client code to exit *)
      let self := set_job_queue (job_queue self ++ [PyNone]) self in
      (self, evs ++ [EvAppend PyNone], IoRecvExited)
  | Propagated => (self, evs, IoCrashed)
  end.

(** ** [_start] (lines 109-126) *)

(** [_start] up to the first read of [async_recv]: the connect phase, the
    flag it sets, and where the coroutine stands afterwards. *)
Definition _start (self : ClientScheduler) (outcomes : nat -> connect_outcome)
    : ClientScheduler * list event * io_pc :=
  let connecting :=
    log_event LInfo "Connecting to scheduler at {}"
      [PyTuple (PyStr (sched_addr self)) (PyStr (sched_port self))] in
  let '(s, evs) := _connect_with_retry self outcomes in
  let self := set_stream s self in
  match stream self with
  | None =>
      let self := set_error_state true self in
      (self, connecting :: evs, IoConnectFailed)
  | Some _ =>
      let self := set_job_queue [] self in
      let self := set_connected true self in
      let '(self', evs', pc) := async_recv self [] in
      (self', connecting :: evs ++ [log_event LDebug "Connected." []] ++ evs', pc)
  end.

(** ** [acquire_block] (lines 186-201) *)

(** The first statement of [acquire_block]: the request to the scheduler. *)
Definition acquire_block_request (self : ClientScheduler) : list event :=
  send (mkMessage WORKER_GET_BLOCK (PyStr (task_id self))).

(** One pass under the condition variable: [None] when the queue is empty
    and the loop goes back to [wait()], otherwise the object without its
    head, and the head. *)
Definition acquire_block_pop (self : ClientScheduler)
    : option (ClientScheduler * pyobj) :=
  match job_queue self with
  | [] => None
  | ret :: rest => Some (set_job_queue rest self, ret)
  end.

(** ** [release_block] (lines 203-233) *)

Definition release_block (self : ClientScheduler) (block : Block) (ret : Z)
    : list event :=
  let '(ret', warned) :=
    if (ret =? 0)%Z then (SUCCESS, [])
    else if (ret =? 1)%Z then (ERROR, [])
    else (SUCCESS,
          [log_event LWarning
             "Daisy user function should return either 0 or 1--given %s"
             [PyInt ret]]) in
  warned
  ++ [log_event LDebug "Releasing block {}" [PyInt (block_id block)]]
  ++ send (mkMessage WORKER_RET_BLOCK
             (PyTuple (PyTuple (PyStr (task_id self)) (PyInt (block_id block)))
                      (PyReturnCode ret'))).

(** ** [__init__] (lines 40-107) *)

(** How the constructor gets to its wait loop: not at all, an exception
    leaves it after the events [evs]; or with the client [s]. *)
Inductive init_result :=
| InitRaises (e : exn) (evs : list event)
| InitWaits (s : System).

(** The constructor up to its wait loop (lines 67-102): it raises, or it
    leaves a client whose [_start] is scheduled on the event loop and
    whose caller enters the wait loop. [environ] is [os.environ]. An
    [ioloop] argument only chooses which event loop runs [_start]. *)
Definition __init__ (sched_addr sched_port task_id : option string)
    (environ : gmap string string) : init_result :=
  let init := log_event LInfo "ClientScheduler init" [] in
  let start a p t :=
    InitWaits
      (mkSystem (mkClient false false None a p t []) IoScheduled InitLoopHead
         [init; log_event LInfo "Waiting for connection to Daisy scheduler..." []]) in
  match sched_addr, sched_port, task_id with
  | Some a, Some p, Some t => start a p t
  | _, _, _ =>
      (* attempt to get them through environment variable *)
      match environ !! "DAISY_CONTEXT" with
      | None =>
          InitRaises (KeyError "DAISY_CONTEXT")
            [init;
             log_event LError "DAISY_CONTEXT environment variable not found!" []]
      | Some v =>
          let context := str_split colon v in
          match context with
          | [a; p; t] => start a p t
          | _ =>
              InitRaises ValueError
                [init;
                 log_event LError "DAISY_CONTEXT found but incorrectly formatted!" []]
          end
      end
  end.

(** ** The running client *)

(** What can happen next: the event loop runs [_start] with the outcomes
    of the connect attempts, the receive loop gets the outcome of a read,
    the caller's thread moves on by one step of what it is in, or the user
    code calls the API. *)
Inductive label :=
| IoStart (outcomes : nat -> connect_outcome)
| IoRecv (r : recv_outcome)
| CallerStep
| Call_acquire_block
| Call_release_block (block : Block) (ret : Z).

(** One step of the client, [None] when [l] cannot happen in [s]. The
    coroutine moves from await to await: [_start] through its connect
    phase (during which the caller sees both flags unset) and then one
    read of the receive loop at a time. The caller is one thread, the
    single consumer of the queue: a turn of the constructor's wait loop
    is two steps (the test of [connected], and the sleep with the test of
    [error_state]); a call of [acquire_block] is the step that sends the
    request and then steps at the queue, each of which finds it empty and
    waits on, or pops the head and returns. *)
Definition step (l : label) (s : System) : option System :=
  match l with
  | IoStart outcomes =>
      match io s with
      | IoScheduled =>
          let '(self', evs, pc) := _start (self s) outcomes in
          Some (mkSystem self' pc (caller s) (trace s ++ evs))
      | _ => None
      end
  | IoRecv r =>
      match io s with
      | IoReceiving =>
          let '(self', evs, pc) := async_recv (self s) [r] in
          Some (mkSystem self' pc (caller s) (trace s ++ evs))
      | _ => None
      end
  | CallerStep =>
      match caller s with
      | InitLoopHead =>
          if connected (self s)
          then Some (mkSystem (self s) (io s) Ready (trace s))
          else Some (mkSystem (self s) (io s) InitSleep (trace s ++ [EvSleep 100]))
      | InitSleep =>
          if error_state (self s)
          then Some (mkSystem (self s) (io s) (Exited 1)
                       (trace s ++ [log_event LError "Cannot connect to Daisy scheduler" [];
                                    EvExit 1]))
          else Some (mkSystem (self s) (io s) InitLoopHead (trace s))
      | AcquireWait =>
          match acquire_block_pop (self s) with
          | None => Some s
          | Some (self', ret) =>
              Some (mkSystem self' (io s) Ready
                      (trace s ++ [log_event LDebug "Received block {}" [ret];
                                   EvReturn ret]))
          end
      | Ready | Exited _ => None
      end
  | Call_acquire_block =>
      match caller s with
      | Ready =>
          Some (mkSystem (self s) (io s) AcquireWait
                  (trace s ++ acquire_block_request (self s)))
      | _ => None
      end
  | Call_release_block block ret =>
      match caller s with
      | Ready =>
          Some (mkSystem (self s) (io s) Ready
                  (trace s ++ release_block (self s) block ret))
      | _ => None
      end
  end.

Fixpoint run (ls : list label) (s : System) : option System :=
  match ls with
  | [] => Some s
  | l :: ls' =>
      match step l s with
      | Some s' => run ls' s'
      | None => None
      end
  end.

(** The states a client can be in: whatever the constructor was given,
    whatever the network and the user code do. *)
Definition reaches (ls : list label) (s : System) : Prop :=
  exists a p t environ s0,
    __init__ a p t environ = InitWaits s0 /\ run ls s0 = Some s.

Definition reachable (s : System) : Prop := exists ls, reaches ls s.

(** ** Vocabulary of the statements *)

(** [a:p:t], the bootstrap string of address [a], port [p] and task [t]. *)
Definition bootstrap (a p t : string) : string :=
  String.append a (String colon (String.append p (String colon t))).

Definition colon_free (s : string) : Prop := str_contains colon s = false.

(** A bootstrap string is valid when it is a colon-separated triplet. *)
Definition valid_bootstrap (v : string) : Prop :=
  exists a p t, colon_free a /\ colon_free p /\ colon_free t /\ v = bootstrap a p t.

(** The client that waits for its connection to [a:p] as task [t]. *)
Definition waiting_client (a p t : string) : System :=
  mkSystem (mkClient false false None a p t []) IoScheduled InitLoopHead
    [log_event LInfo "ClientScheduler init" [];
     log_event LInfo "Waiting for connection to Daisy scheduler..." []].

(** The [WORKER_RET_BLOCK] message for [block] with return code [rc]. *)
Definition ret_block_message (self : ClientScheduler) (block : Block)
    (rc : ReturnCode) : SchedulerMessage :=
  mkMessage WORKER_RET_BLOCK
    (PyTuple (PyTuple (PyStr (task_id self)) (PyInt (block_id block)))
             (PyReturnCode rc)).

Definition is_warning (r : LogRecord) : bool :=
  match levelname r with LWarning => true | _ => false end.

(** What a failed connect attempt that is retried leaves in the trace:
    the attempt, its debug record and the one second of sleep. *)
Definition failed_attempt (addr port : string) : list event :=
  [EvConnect addr port 60;
   log_event LDebug "TCP connect error, retry..." [];
   EvSleep 1000].

(** What the failed attempt that ends the retries leaves. *)
Definition giving_up (addr port : string) : list event :=
  [EvConnect addr port 60;
   log_event LDebug "TCP connect error, retry..." [];
   log_event LDebug "Timeout, quitting." []].

(** The attempts [from], ..., [from + n - 1] all fail. *)
Definition fails_from (outcomes : nat -> connect_outcome) (from n : nat) : Prop :=
  forall j, from <= j < from + n -> outcomes j = ConnectException.

(** The network never answers. *)
Definition never_connects : nat -> connect_outcome := fun _ => ConnectException.

(** The network answers the attempt number [n] (from 0). *)
Definition connects_at (n : nat) : nat -> connect_outcome :=
  fun k => if Nat.ltb k n then ConnectException else ConnectOk (mkIOStream 3).

(** The payload that a label puts on the work queue as a block: the data
    of a received [NEW_BLOCK] message. *)
Definition new_block (l : label) : option pyobj :=
  match l with
  | IoRecv (RecvMessage m) =>
      match type m with
      | NEW_BLOCK => Some (data m)
      | _ => None
      end
  | _ => None
  end.

(** The payloads of the [NEW_BLOCK] messages received along [ls], in the
    order of their receipt. *)
Definition new_blocks (ls : list label) : list pyobj := omap new_block ls.

(** The scheduler keeps to the protocol: a [NEW_BLOCK] message carries a
    [Block]. *)
Definition well_typed (l : label) : bool :=
  match new_block l with
  | Some x => is_Block x
  | None => true
  end.

(** The terminal sentinel, once the receive loop has run to its end. *)
Definition sentinel (pc : io_pc) : list pyobj :=
  match pc with
  | IoRecvExited => [PyNone]
  | _ => []
  end.

(** The receipt of [NEW_BLOCK(block)] and of [TERMINATE_WORKER()]. *)
Definition recv_new_block (block : Block) : label :=
  IoRecv (RecvMessage (mkMessage NEW_BLOCK (PyBlock block))).

Definition recv_terminate : label :=
  IoRecv (RecvMessage (mkMessage TERMINATE_WORKER PyNone)).

(** One whole call of [acquire_block] whose wait is over at once. *)
Definition acquire_once : list label := [Call_acquire_block; CallerStep].

(** Nothing in [evs] touches the work queue, the user code or the
    scheduler. *)
Definition quiet (evs : list event) : Prop :=
  appended evs = [] /\ returned evs = [] /\ sent evs = [] /\ exits evs = [].

(** What holds of a client after the steps [ls]: the flags follow the
    coroutine, the caller is past the constructor only when connected and
    has exited only on [error_state], what was returned and what is queued
    make up what was appended, and what was appended are the received
    blocks and then the sentinel. *)
Record invariant (ls : list label) (s : System) : Prop := mkInvariant {
  inv_flags :
    match io s with
    | IoScheduled =>
        connected (self s) = false /\ error_state (self s) = false
        /\ job_queue (self s) = []
    | IoConnectFailed => connected (self s) = false /\ error_state (self s) = true
    | IoReceiving | IoRecvExited | IoCrashed =>
        connected (self s) = true /\ error_state (self s) = false
    end;
  inv_caller :
    match caller s with
    | InitLoopHead | InitSleep => True
    | Ready | AcquireWait => connected (self s) = true
    | Exited code => code = 1%Z /\ error_state (self s) = true
    end;
  inv_fifo : returned (trace s) ++ job_queue (self s) = appended (trace s);
  inv_appended : appended (trace s) = new_blocks ls ++ sentinel (io s)
}.

(** The coroutine is over: [_start] has returned or was left by an
    exception. *)
Definition io_over (pc : io_pc) : bool :=
  match pc with
  | IoConnectFailed | IoRecvExited | IoCrashed => true
  | IoScheduled | IoReceiving => false
  end.

(** The labels after which the receive loop appends to the work queue:
    the receipt of [NEW_BLOCK] or [TERMINATE_WORKER], and the loss of the
    connection. *)
Definition delivers (l : label) : bool :=
  match l with
  | IoRecv (RecvMessage m) =>
      match type m with
      | NEW_BLOCK | TERMINATE_WORKER => true
      | _ => false
      end
  | IoRecv RecvStreamClosedError => true
  | _ => false
  end.

(** A block or the sentinel: what [acquire_block] may return. *)
Definition block_or_None (x : pyobj) : bool := is_Block x || is_None x.

(** ** Sample inputs *)

Definition sample_environ : gmap string string :=
  {[ "DAISY_CONTEXT" := "10.0.0.5:9000:worker-7" ]}.

Definition short_environ : gmap string string :=
  {[ "DAISY_CONTEXT" := "10.0.0.5:9000" ]}.

Definition empty_fields_environ : gmap string string :=
  {[ "DAISY_CONTEXT" := "::" ]}.

(** The client of the sample environment, and what becomes of it when
    the network never answers and when it answers the third attempt. *)
Definition sample_client : System := waiting_client "10.0.0.5" "9000" "worker-7".

Definition after (ls : list label) (s : System) : System :=
  match run ls s with
  | Some s' => s'
  | None => s
  end.

Definition failed_system : System := after [IoStart never_connects] sample_client.

Definition connected_system : System := after [IoStart (connects_at 2)] sample_client.

(** The scenario of the specification: the connection, the return of the
    constructor, [NEW_BLOCK(block_id=42)], [TERMINATE_WORKER()], and two
    calls of [acquire_block]. *)
Definition block42 : Block := mkBlock 42 "roi".
Definition block43 : Block := mkBlock 43 "roi".

Definition scenario : list label :=
  [IoStart (connects_at 2); CallerStep;
   recv_new_block block42; recv_terminate;
   Call_acquire_block; CallerStep; Call_acquire_block; CallerStep].

Definition drained_system : System := after scenario sample_client.

(** The connection, a block, an exception out of the read, a call that
    returns the block and a call that waits. *)
Definition crash_scenario : list label :=
  [IoStart (connects_at 2); CallerStep; recv_new_block block42;
   IoRecv RecvOtherException;
   Call_acquire_block; CallerStep; Call_acquire_block].

Definition crashed_system : System := after crash_scenario sample_client.

(** ** [async_send] (lines 174-180) *)

(** How [await self.stream.write(data)] ends on a stream. *)
Inductive write_outcome :=
| WriteDone
| WriteStreamClosedError.

(** What a run of [async_send] comes to: the data went onto the stream;
    the stream was closed, which is logged and not raised; or there is no
    stream at all ([self.stream] is still [None]) and the attribute
    lookup [None.write] raises, which no clause catches. *)
Inductive async_send_result (bytes : Type) :=
| Written (data : bytes)
| ClosedLogged (r : LogRecord)
| AttributeError.
Arguments Written {bytes} data.
Arguments ClosedLogged {bytes} r.
Arguments AttributeError {bytes}.

Section Wire.

(** [tcp.pack_message], which is not among the sources, and what it
    packs messages into. *)
Variable bytes : Type.
Variable pack_message : SchedulerMessage -> bytes.

Definition async_send (self : ClientScheduler) (data : bytes)
    (o : write_outcome) : async_send_result bytes :=
  match stream self with
  | None => AttributeError
  | Some _ =>
      match o with
      | WriteDone => Written data
      | WriteStreamClosedError =>
          ClosedLogged
            (mkLog LError "Unexpected loss of connection to scheduler!" [])
      end
  end.

(** The callbacks that [send] has spawned, one [async_send] for each
    message in the order of the spawns, the write of each ending as
    [outcomes] says; a callback without an outcome has not run yet. *)
Definition run_callbacks (self : ClientScheduler)
    (spawned : list SchedulerMessage) (outcomes : list write_outcome)
    : list (async_send_result bytes) :=
  zip_with (fun m o => async_send self (pack_message m) o) spawned outcomes.

(** What went onto the stream, and the records logged. *)
Definition written (rs : list (async_send_result bytes)) : list bytes :=
  omap (fun r => match r with Written d => Some d | _ => None end) rs.

Definition closed_logged (rs : list (async_send_result bytes)) : list LogRecord :=
  omap (fun r => match r with ClosedLogged l => Some l | _ => None end) rs.

Definition raised (rs : list (async_send_result bytes)) : bool :=
  existsb (fun r => match r with AttributeError => true | _ => false end) rs.

End Wire.

(** ** More vocabulary *)

(** [s.count(sep)]. *)
Fixpoint str_count (sep : ascii) (s : string) : nat :=
  match s with
  | EmptyString => 0
  | String c rest => (if Ascii.eqb c sep then 1 else 0) + str_count sep rest
  end.

(** The [ReturnCode] that [release_block] makes of the user's integer. *)
Definition return_code (ret : Z) : ReturnCode :=
  if (ret =? 0)%Z then SUCCESS else if (ret =? 1)%Z then ERROR else SUCCESS.

(** The message that a step hands to the event loop, for a client of
    task [tid]: the request of a call of [acquire_block], the result of
    a call of [release_block], the farewell on [TERMINATE_WORKER]. *)
Definition outbound (tid : string) (l : label) : option SchedulerMessage :=
  match l with
  | Call_acquire_block => Some (mkMessage WORKER_GET_BLOCK (PyStr tid))
  | Call_release_block block ret =>
      Some (mkMessage WORKER_RET_BLOCK
              (PyTuple (PyTuple (PyStr tid) (PyInt (block_id block)))
                       (PyReturnCode (return_code ret))))
  | IoRecv (RecvMessage m) =>
      match type m with
      | TERMINATE_WORKER => Some (mkMessage WORKER_EXITING PyNone)
      | _ => None
      end
  | _ => None
  end.

Definition is_request (m : SchedulerMessage) : bool :=
  match type m with WORKER_GET_BLOCK => true | _ => false end.

Definition is_exiting (m : SchedulerMessage) : bool :=
  match type m with WORKER_EXITING => true | _ => false end.

(** The calls of [acquire_block] that have not returned yet. *)
Definition waiting (pc : caller_pc) : nat :=
  match pc with AcquireWait => 1 | _ => 0 end.

(** [n] turns of the constructor's wait loop. *)
Definition poll_rounds (n : nat) : list label :=
  concat (repeat [CallerStep; CallerStep] n).

(** The loop of the class docstring over the blocks of [work], each with
    the integer that the user function returns for it: acquire, release,
    and one last acquire, which is the one that gets [None]. *)
Definition worker_loop (work : list (Block * Z)) : list label :=
  concat (map (fun w => acquire_once ++ [Call_release_block w.1 w.2]) work)
  ++ acquire_once.

(** What the loop of the docstring hands to the event loop. *)
Definition worker_messages (tid : string) (work : list (Block * Z))
    : list SchedulerMessage :=
  concat (map (fun w => [mkMessage WORKER_GET_BLOCK (PyStr tid);
                         mkMessage WORKER_RET_BLOCK
                           (PyTuple (PyTuple (PyStr tid) (PyInt (block_id w.1)))
                                    (PyReturnCode (return_code w.2)))]) work)
  ++ [mkMessage WORKER_GET_BLOCK (PyStr tid)].

(** The books of a client after the steps [ls]: what it has handed to
    the event loop is what its steps hand over, one message each; every
    request stands for a value returned or for the call that waits; it
    has a stream exactly from the connection on; and all its connect
    attempts, eleven at most, went to its scheduler. *)
Record ledger (ls : list label) (s : System) : Prop := mkLedger {
  led_sent : sent (trace s) = omap (outbound (task_id (self s))) ls;
  led_requests :
    length (List.filter is_request (sent (trace s)))
    = length (returned (trace s)) + waiting (caller s);
  led_stream :
    match io s with
    | IoScheduled | IoConnectFailed => stream (self s) = None
    | IoReceiving | IoRecvExited | IoCrashed =>
        exists st, stream (self s) = Some st
    end;
  led_connects :
    exists k,
      k <= 11
      /\ connects (trace s)
         = repeat (sched_addr (self s), sched_port (self s), 60%Z) k
      /\ (k = 0 <-> io s = IoScheduled)
}.

(** ** Projections of a trace *)

Lemma sent_app t1 t2 : sent (t1 ++ t2) = sent t1 ++ sent t2.
Proof. apply omap_app. Qed.

Lemma appended_app t1 t2 : appended (t1 ++ t2) = appended t1 ++ appended t2.
Proof. apply omap_app. Qed.

Lemma returned_app t1 t2 : returned (t1 ++ t2) = returned t1 ++ returned t2.
Proof. apply omap_app. Qed.

Lemma logged_app t1 t2 : logged (t1 ++ t2) = logged t1 ++ logged t2.
Proof. apply omap_app. Qed.

Lemma connects_app t1 t2 : connects (t1 ++ t2) = connects t1 ++ connects t2.
Proof. apply omap_app. Qed.

Lemma sleeps_app t1 t2 : sleeps (t1 ++ t2) = sleeps t1 ++ sleeps t2.
Proof. apply omap_app. Qed.

Lemma exits_app t1 t2 : exits (t1 ++ t2) = exits t1 ++ exits t2.
Proof. apply omap_app. Qed.

Ltac proj_app :=
  rewrite ?sent_app, ?appended_app, ?returned_app, ?logged_app,
    ?connects_app, ?sleeps_app, ?exits_app.

(** ** [str_split] *)

Lemma str_split_not_nil sep s : str_split sep s <> [].
Proof.
  destruct s as [|c s]; simpl; [discriminate|].
  destruct (Ascii.eqb c sep); [discriminate|].
  destruct (str_split sep s); discriminate.
Qed.

Lemma str_split_free sep s :
  str_contains sep s = false -> str_split sep s = [s].
Proof.
  induction s as [|c s IH]; simpl; [reflexivity|].
  intros H. apply orb_false_iff in H as [Hc Hs].
  rewrite Hc, (IH Hs). reflexivity.
Qed.

Lemma str_split_append sep a b :
  str_contains sep a = false ->
  str_split sep (String.append a (String sep b)) = a :: str_split sep b.
Proof.
  induction a as [|c a IH]; simpl.
  - intros _. rewrite Ascii.eqb_refl. reflexivity.
  - intros H. apply orb_false_iff in H as [Hc Ha].
    rewrite Hc, (IH Ha). reflexivity.
Qed.

Lemma str_split_bootstrap a p t :
  colon_free a -> colon_free p -> colon_free t ->
  str_split colon (bootstrap a p t) = [a; p; t].
Proof.
  unfold colon_free, bootstrap. intros Ha Hp Ht.
  rewrite (str_split_append _ _ _ Ha), (str_split_append _ _ _ Hp).
  rewrite (str_split_free _ _ Ht). reflexivity.
Qed.

(** A split cuts at a separator: the first field has none, and the string
    is the first field, or the first field, a separator and the rest. *)
Lemma str_split_cons sep s w ws :
  str_split sep s = w :: ws ->
  str_contains sep w = false /\
  match ws with
  | [] => s = w
  | _ :: _ => exists rest, s = String.append w (String sep rest)
                           /\ str_split sep rest = ws
  end.
Proof.
  revert w ws. induction s as [|c s IH]; simpl; intros w ws H.
  - inversion H; subst. split; reflexivity.
  - destruct (Ascii.eqb c sep) eqn:Hc.
    + inversion H; subst. apply Ascii.eqb_eq in Hc as ->.
      split; [reflexivity|].
      pose proof (str_split_not_nil sep s) as Hne.
      destruct (str_split sep s) eqn:Hs; [congruence|].
      exists s. split; [reflexivity | exact Hs].
    + destruct (str_split sep s) as [|w' ws'] eqn:Hs.
      { exfalso. exact (str_split_not_nil _ _ Hs). }
      inversion H; subst.
      destruct (IH w' ws eq_refl) as [Hw Hrest].
      split; [simpl; rewrite Hc, Hw; reflexivity|].
      destruct ws as [|w2 ws2].
      * subst. reflexivity.
      * destruct Hrest as (rest & -> & Hrest). exists rest.
        split; [reflexivity | exact Hrest].
Qed.

Lemma str_split_three v a p t :
  str_split colon v = [a; p; t] -> valid_bootstrap v.
Proof.
  intros H. apply str_split_cons in H as (Ha & r1 & -> & H).
  apply str_split_cons in H as (Hp & r2 & -> & H).
  apply str_split_cons in H as (Ht & ->).
  exists a, p, t. repeat split; assumption.
Qed.

Lemma valid_bootstrap_iff v :
  valid_bootstrap v <-> exists a p t, str_split colon v = [a; p; t].
Proof.
  split.
  - intros (a & p & t & Ha & Hp & Ht & ->). exists a, p, t.
    apply str_split_bootstrap; assumption.
  - intros (a & p & t & H). eapply str_split_three, H.
Qed.

(** ** The constructor's choice of address, port and task *)

Lemma init_explicit a p t environ :
  __init__ (Some a) (Some p) (Some t) environ = InitWaits (waiting_client a p t).
Proof. reflexivity. Qed.

(** With a parameter left out, only the environment counts. *)
Lemma init_partial sa sp st environ :
  sa = None \/ sp = None \/ st = None ->
  __init__ sa sp st environ = __init__ None None None environ.
Proof.
  intros H. destruct sa, sp, st; try reflexivity.
  destruct H as [H | [H | H]]; discriminate.
Qed.

Lemma init_env_missing environ :
  environ !! "DAISY_CONTEXT" = None ->
  __init__ None None None environ =
    InitRaises (KeyError "DAISY_CONTEXT")
      [log_event LInfo "ClientScheduler init" [];
       log_event LError "DAISY_CONTEXT environment variable not found!" []].
Proof. intros H. unfold __init__. rewrite H. reflexivity. Qed.

Lemma init_env_valid environ a p t :
  colon_free a -> colon_free p -> colon_free t ->
  environ !! "DAISY_CONTEXT" = Some (bootstrap a p t) ->
  __init__ None None None environ = InitWaits (waiting_client a p t).
Proof.
  intros Ha Hp Ht H. unfold __init__.
  rewrite H, (str_split_bootstrap _ _ _ Ha Hp Ht). reflexivity.
Qed.

Lemma init_env_malformed environ v :
  environ !! "DAISY_CONTEXT" = Some v ->
  ~ valid_bootstrap v ->
  __init__ None None None environ =
    InitRaises ValueError
      [log_event LInfo "ClientScheduler init" [];
       log_event LError "DAISY_CONTEXT found but incorrectly formatted!" []].
Proof.
  intros H Hbad. unfold __init__. rewrite H.
  destruct (str_split colon v) as [|a [|p [|t [|x l]]]] eqn:Hs; try reflexivity.
  exfalso. apply Hbad. eapply str_split_three, Hs.
Qed.

(** C4. When the constructor turns to the environment (a parameter is
    left out): a [DAISY_CONTEXT] of the form [address:port:task_id], the
    three fields free of colons, gives exactly the client of that
    address, port and task; any other value raises [ValueError], and a
    missing variable raises [KeyError], each after its own error record
    and with no connection attempted: nothing is scheduled on the event
    loop and no [connect] was made. *)
Theorem bootstrap_string_parsed_or_rejected
    (addr_arg port_arg task_arg : option string)
    (environ : gmap string string) :
  addr_arg = None \/ port_arg = None \/ task_arg = None ->
  (forall a p t,
     colon_free a -> colon_free p -> colon_free t ->
     environ !! "DAISY_CONTEXT" = Some (bootstrap a p t) ->
     exists self0 evs,
       __init__ addr_arg port_arg task_arg environ
         = InitWaits (mkSystem self0 IoScheduled InitLoopHead evs)
       /\ sched_addr self0 = a
       /\ sched_port self0 = p
       /\ task_id self0 = t
       /\ connects evs = [])
  /\ (forall v,
        environ !! "DAISY_CONTEXT" = Some v -> ~ valid_bootstrap v ->
        exists evs,
          __init__ addr_arg port_arg task_arg environ = InitRaises ValueError evs
          /\ connects evs = []
          /\ last (logged evs) =
               Some (mkLog LError "DAISY_CONTEXT found but incorrectly formatted!" []))
  /\ (environ !! "DAISY_CONTEXT" = None ->
      exists evs,
        __init__ addr_arg port_arg task_arg environ
          = InitRaises (KeyError "DAISY_CONTEXT") evs
        /\ connects evs = []
        /\ last (logged evs) =
             Some (mkLog LError "DAISY_CONTEXT environment variable not found!" [])).
Proof.
  intros Hnone. rewrite (init_partial _ _ _ _ Hnone). repeat split.
  - intros a p t Ha Hp Ht H. do 2 eexists.
    rewrite (init_env_valid _ _ _ _ Ha Hp Ht H). repeat split; reflexivity.
  - intros v H Hbad. eexists. rewrite (init_env_malformed _ _ H Hbad).
    repeat split; reflexivity.
  - intros H. eexists. rewrite (init_env_missing _ H).
    repeat split; reflexivity.
Qed.

Lemma bootstrap_string_parsed_or_rejected_witness :
  (exists self0 evs,
     __init__ None None None sample_environ
       = InitWaits (mkSystem self0 IoScheduled InitLoopHead evs)
     /\ sched_addr self0 = "10.0.0.5"
     /\ sched_port self0 = "9000"
     /\ task_id self0 = "worker-7"
     /\ connects evs = [])
  /\ (exists evs,
        __init__ (Some "10.0.0.5") None None short_environ = InitRaises ValueError evs
        /\ connects evs = []
        /\ last (logged evs) =
             Some (mkLog LError "DAISY_CONTEXT found but incorrectly formatted!" []))
  /\ (exists evs,
        __init__ None None None ∅ = InitRaises (KeyError "DAISY_CONTEXT") evs
        /\ connects evs = []
        /\ last (logged evs) =
             Some (mkLog LError "DAISY_CONTEXT environment variable not found!" [])).
Proof.
  split; [|split].
  - apply (proj1 (bootstrap_string_parsed_or_rejected None None None
                    sample_environ (or_introl eq_refl))
             "10.0.0.5" "9000" "worker-7"); reflexivity.
  - apply (proj1 (proj2 (bootstrap_string_parsed_or_rejected (Some "10.0.0.5")
                           None None short_environ (or_intror (or_introl eq_refl))))
             "10.0.0.5:9000"); [reflexivity|].
    intros H. apply valid_bootstrap_iff in H as (a & p & t & H).
    vm_compute in H. discriminate H.
  - apply (proj2 (proj2 (bootstrap_string_parsed_or_rejected None None None
                           ∅ (or_introl eq_refl)))).
    reflexivity.
Defined.

(** C10. With some but not all of the three parameters given, the
    constructor does exactly what it does with none of them: the
    environment decides, the given values are dropped, and a missing or
    malformed [DAISY_CONTEXT] raises. With all three given the result is
    the client of these three, whatever the environment holds. *)
Theorem partial_parameters_are_overwritten :
  (forall (addr_arg port_arg task_arg : option string)
          (environ : gmap string string),
     addr_arg = None \/ port_arg = None \/ task_arg = None ->
     __init__ addr_arg port_arg task_arg environ = __init__ None None None environ
     /\ (forall a p t,
           colon_free a -> colon_free p -> colon_free t ->
           environ !! "DAISY_CONTEXT" = Some (bootstrap a p t) ->
           __init__ addr_arg port_arg task_arg environ
             = InitWaits (waiting_client a p t))
     /\ (forall v,
           environ !! "DAISY_CONTEXT" = Some v -> ~ valid_bootstrap v ->
           exists evs,
             __init__ addr_arg port_arg task_arg environ = InitRaises ValueError evs)
     /\ (environ !! "DAISY_CONTEXT" = None ->
         exists evs,
           __init__ addr_arg port_arg task_arg environ
             = InitRaises (KeyError "DAISY_CONTEXT") evs))
  /\ (forall (a p t : string) (environ : gmap string string),
        __init__ (Some a) (Some p) (Some t) environ
          = InitWaits (waiting_client a p t)).
Proof.
  split; [|exact init_explicit].
  intros sa sp st environ Hnone. rewrite (init_partial _ _ _ _ Hnone).
  repeat split.
  - intros a p t Ha Hp Ht H. exact (init_env_valid _ _ _ _ Ha Hp Ht H).
  - intros v H Hbad. eexists. exact (init_env_malformed _ _ H Hbad).
  - intros H. eexists. exact (init_env_missing _ H).
Qed.

Lemma partial_parameters_are_overwritten_witness :
  __init__ (Some "192.168.1.1") (Some "1234") None sample_environ
    = InitWaits (waiting_client "10.0.0.5" "9000" "worker-7")
  /\ (exists evs,
        __init__ (Some "192.168.1.1") (Some "1234") None ∅
          = InitRaises (KeyError "DAISY_CONTEXT") evs)
  /\ __init__ (Some "192.168.1.1") (Some "1234") (Some "w") ∅
       = InitWaits (waiting_client "192.168.1.1" "1234" "w").
Proof.
  split; [|split].
  - apply (proj1 (proj2 (proj1 partial_parameters_are_overwritten
                           (Some "192.168.1.1") (Some "1234") None sample_environ
                           (or_intror (or_intror eq_refl))))
             "10.0.0.5" "9000" "worker-7"); reflexivity.
  - apply (proj2 (proj2 (proj2 (proj1 partial_parameters_are_overwritten
                           (Some "192.168.1.1") (Some "1234") None ∅
                           (or_intror (or_intror eq_refl)))))).
    reflexivity.
  - apply (proj2 partial_parameters_are_overwritten).
Defined.

(** ** [release_block] *)

(** C3. [release_block(block, 0)] sends one [WORKER_RET_BLOCK] message
    carrying [((task_id, block_id), SUCCESS)] and logs no warning;
    [release_block(block, 1)] sends the same with [ERROR]; any other
    integer sends it with [SUCCESS] after one warning that names the
    integer. Whatever the integer, a call made by user code that holds
    the client goes through and leaves the client as it was. *)
Theorem release_block_return_codes (client : ClientScheduler) (block : Block) :
  (sent (release_block client block 0) = [ret_block_message client block SUCCESS]
   /\ List.filter is_warning (logged (release_block client block 0)) = [])
  /\ (sent (release_block client block 1) = [ret_block_message client block ERROR]
      /\ List.filter is_warning (logged (release_block client block 1)) = [])
  /\ (forall ret : Z,
        ret <> 0%Z -> ret <> 1%Z ->
        sent (release_block client block ret)
          = [ret_block_message client block SUCCESS]
        /\ List.filter is_warning (logged (release_block client block ret))
           = [mkLog LWarning
                "Daisy user function should return either 0 or 1--given %s"
                [PyInt ret]])
  /\ (forall (s : System) (ret : Z),
        caller s = Ready ->
        step (Call_release_block block ret) s
          = Some (mkSystem (self s) (io s) Ready
                    (trace s ++ release_block (self s) block ret))).
Proof.
  split; [|split; [|split]].
  - split; reflexivity.
  - split; reflexivity.
  - intros ret H0 H1. unfold release_block.
    apply Z.eqb_neq in H0, H1. rewrite H0, H1. split; reflexivity.
  - intros s ret H. unfold step. rewrite H. reflexivity.
Qed.

Lemma release_block_return_codes_witness :
  sent (release_block (mkClient true false None "10.0.0.5" "9000" "worker-7" [])
          block42 7)
  = [mkMessage WORKER_RET_BLOCK
       (PyTuple (PyTuple (PyStr "worker-7") (PyInt 42)) (PyReturnCode SUCCESS))]
  /\ List.filter is_warning
       (logged (release_block
                  (mkClient true false None "10.0.0.5" "9000" "worker-7" [])
                  block42 7))
     = [mkLog LWarning
          "Daisy user function should return either 0 or 1--given %s"
          [PyInt 7]].
Proof.
  apply (proj1 (proj2 (proj2 (release_block_return_codes
           (mkClient true false None "10.0.0.5" "9000" "worker-7" []) block42))) 7%Z);
    discriminate.
Defined.

(** ** [_connect_with_retry] *)

Lemma connect_loop_eq addr port outcomes counter :
  connect_loop addr port outcomes counter =
  match outcomes counter with
  | ConnectOk s => (Some s, [EvConnect addr port 60])
  | ConnectException =>
      if gt_dec (counter + 1) 10
      then (None, giving_up addr port)
      else ((connect_loop addr port outcomes (counter + 1)).1,
            failed_attempt addr port
            ++ (connect_loop addr port outcomes (counter + 1)).2)
  end.
Proof.
  funelim (connect_loop addr port outcomes counter).
  - rewrite Heq. reflexivity.
  - rewrite Heq0, Heq. reflexivity.
  - rewrite Heq0, Heq. reflexivity.
Qed.

Lemma fails_from_cons outcomes from n :
  outcomes from = ConnectException ->
  fails_from outcomes (from + 1) n ->
  fails_from outcomes from (S n).
Proof.
  intros H0 H j Hj. destruct (Nat.eq_dec j from) as [->|Hne]; [exact H0|].
  apply H. lia.
Qed.

(** From [counter] failures on, the loop makes [k] more failed attempts,
    each followed by its sleep, and then one last attempt: the one that
    connects, or the one that takes [counter] past 10. *)
Lemma connect_loop_spec addr port outcomes counter :
  counter <= 10 ->
  exists k,
    counter + k <= 10
    /\ fails_from outcomes counter k
    /\ ((exists s,
           outcomes (counter + k) = ConnectOk s
           /\ connect_loop addr port outcomes counter
              = (Some s, concat (repeat (failed_attempt addr port) k)
                         ++ [EvConnect addr port 60]))
        \/ (counter + k = 10
            /\ outcomes 10 = ConnectException
            /\ connect_loop addr port outcomes counter
               = (None, concat (repeat (failed_attempt addr port) k)
                        ++ giving_up addr port))).
Proof.
  intros Hle. remember (10 - counter) as n eqn:Hn.
  revert counter Hle Hn. induction n as [|n IH]; intros counter Hle Hn.
  - assert (counter = 10) as -> by lia. exists 0.
    split; [lia|]. split; [intros j Hj; lia|].
    rewrite connect_loop_eq. destruct (outcomes 10) as [s|] eqn:Ho.
    + left. exists s. split; [first [exact Ho | reflexivity] | reflexivity].
    + right. destruct (gt_dec (10 + 1) 10) as [_|Hn']; [|lia].
      split; [reflexivity|]. split; [first [exact Ho | reflexivity] | reflexivity].
  - rewrite connect_loop_eq. destruct (outcomes counter) as [s|] eqn:Ho.
    + exists 0. split; [lia|]. split; [intros j Hj; lia|].
      left. exists s. rewrite Nat.add_0_r. split; [first [exact Ho | reflexivity] | reflexivity].
    + destruct (gt_dec (counter + 1) 10) as [Hgt|_]; [lia|].
      destruct (IH (counter + 1)) as (k & Hk & Hfail & Hres); [lia | lia |].
      exists (S k). split; [lia|].
      split; [apply fails_from_cons; assumption|].
      replace (counter + S k) with (counter + 1 + k) by lia.
      destruct Hres as [(s & Hs & ->) | (H10 & Ho10 & ->)].
      * left. exists s. split; [exact Hs|]. simpl. reflexivity.
      * right. split; [exact H10|]. split; [exact Ho10|]. reflexivity.
Qed.

Lemma connects_failed_attempts addr port k :
  connects (concat (repeat (failed_attempt addr port) k))
  = repeat (addr, port, 60%Z) k.
Proof. induction k as [|k IH]; simpl; [reflexivity|]. f_equal. exact IH. Qed.

Lemma sleeps_failed_attempts addr port k :
  sleeps (concat (repeat (failed_attempt addr port) k)) = repeat 1000%Z k.
Proof. induction k as [|k IH]; simpl; [reflexivity|]. f_equal. exact IH. Qed.

Lemma appended_failed_attempts addr port k :
  appended (concat (repeat (failed_attempt addr port) k)) = [].
Proof. induction k as [|k IH]; simpl; [reflexivity | exact IH]. Qed.

Lemma returned_failed_attempts addr port k :
  returned (concat (repeat (failed_attempt addr port) k)) = [].
Proof. induction k as [|k IH]; simpl; [reflexivity | exact IH]. Qed.

Lemma sent_failed_attempts addr port k :
  sent (concat (repeat (failed_attempt addr port) k)) = [].
Proof. induction k as [|k IH]; simpl; [reflexivity | exact IH]. Qed.

Lemma exits_failed_attempts addr port k :
  exits (concat (repeat (failed_attempt addr port) k)) = [].
Proof. induction k as [|k IH]; simpl; [reflexivity | exact IH]. Qed.

Lemma connect_retry_spec_events client outcomes :
  exists k fin,
    (_connect_with_retry client outcomes).2
    = concat (repeat (failed_attempt (sched_addr client) (sched_port client)) k)
      ++ fin
    /\ (fin = [EvConnect (sched_addr client) (sched_port client) 60]
        \/ fin = giving_up (sched_addr client) (sched_port client)).
Proof.
  unfold _connect_with_retry.
  destruct (connect_loop_spec (sched_addr client) (sched_port client) outcomes 0)
    as (k & _ & _ & [(s & _ & ->) | (_ & _ & ->)]); [lia | |];
    exists k; eexists; (split; [reflexivity|]); [left | right]; reflexivity.
Qed.

(** C5. Whatever the outcomes of the connect attempts,
    [_connect_with_retry] returns: after some [retries <= 10] failed
    attempts, each followed by one second of sleep, it makes one last
    attempt and returns its stream, or [None] when that attempt is the
    eleventh failure. So there are at most 11 attempts and 10 sleeps, and
    [None] is returned exactly when the first eleven attempts all fail. *)
Theorem connect_retry_bounded
    (client : ClientScheduler) (outcomes : nat -> connect_outcome) :
  exists retries : nat,
    retries <= 10
    /\ fails_from outcomes 0 retries
    /\ (_connect_with_retry client outcomes).2
       = concat (repeat (failed_attempt (sched_addr client) (sched_port client))
                   retries)
         ++ match (_connect_with_retry client outcomes).1 with
            | Some _ => [EvConnect (sched_addr client) (sched_port client) 60]
            | None => giving_up (sched_addr client) (sched_port client)
            end
    /\ length (connects (_connect_with_retry client outcomes).2) = retries + 1
    /\ sleeps (_connect_with_retry client outcomes).2 = repeat 1000%Z retries
    /\ match (_connect_with_retry client outcomes).1 with
       | Some s => outcomes retries = ConnectOk s
       | None => retries = 10 /\ outcomes 10 = ConnectException
       end
    /\ ((_connect_with_retry client outcomes).1 = None
        <-> forall j, j <= 10 -> outcomes j = ConnectException).
Proof.
  unfold _connect_with_retry.
  destruct (connect_loop_spec (sched_addr client) (sched_port client) outcomes 0)
    as (k & Hk & Hfail & Hres); [lia|].
  exists k. simpl in Hk, Hres. split; [exact Hk|]. split; [exact Hfail|].
  destruct Hres as [(s & Hs & ->) | (H10 & Ho10 & ->)]; simpl.
  - split; [reflexivity|].
    split; [rewrite connects_app, connects_failed_attempts, length_app,
              repeat_length; reflexivity|].
    split; [rewrite sleeps_app, sleeps_failed_attempts; apply app_nil_r|].
    split; [exact Hs|].
    split; [discriminate|].
    intros Hall. rewrite (Hall k Hk) in Hs. discriminate.
  - split; [reflexivity|].
    split; [rewrite connects_app, connects_failed_attempts, length_app,
              repeat_length; reflexivity|].
    split; [rewrite sleeps_app, sleeps_failed_attempts; apply app_nil_r|].
    split; [split; assumption|].
    split; [|reflexivity].
    intros _ j Hj. destruct (Nat.eq_dec j 10) as [->|Hne]; [exact Ho10|].
    apply Hfail. lia.
Qed.

Example connect_never : 
  (_connect_with_retry (self (waiting_client "10.0.0.5" "9000" "worker-7"))
     never_connects).1 = None
  /\ length (connects (_connect_with_retry
                         (self (waiting_client "10.0.0.5" "9000" "worker-7"))
                         never_connects).2) = 11
  /\ length (sleeps (_connect_with_retry
                       (self (waiting_client "10.0.0.5" "9000" "worker-7"))
                       never_connects).2) = 10.
Proof. repeat split. Qed.

Example connect_at_last :
  (_connect_with_retry (self (waiting_client "10.0.0.5" "9000" "worker-7"))
     (connects_at 10)).1 = Some (mkIOStream 3).
Proof. reflexivity. Qed.

(** ** Steps of a running client *)

Lemma run_app ls1 ls2 s :
  run (ls1 ++ ls2) s = match run ls1 s with
                       | Some s' => run ls2 s'
                       | None => None
                       end.
Proof.
  revert s. induction ls1 as [|l ls1 IH]; intros s; simpl; [reflexivity|].
  destruct (step l s); [apply IH | reflexivity].
Qed.

Lemma init_waits sa sp st environ s0 :
  __init__ sa sp st environ = InitWaits s0 ->
  exists a p t, s0 = waiting_client a p t.
Proof.
  unfold __init__. intros H.
  destruct sa, sp, st;
    try (inversion H; subst; eauto; fail);
    (destruct (environ !! "DAISY_CONTEXT") as [v|]; [|discriminate];
     destruct (str_split colon v) as [|a [|p [|t [|x l]]]]; try discriminate;
     inversion H; subst; eauto).
Qed.

Lemma connect_quiet client outcomes :
  quiet (_connect_with_retry client outcomes).2.
Proof.
  destruct (connect_retry_spec_events client outcomes) as (k & fin & -> & Hfin).
  unfold quiet. proj_app.
  rewrite appended_failed_attempts, returned_failed_attempts,
    sent_failed_attempts, exits_failed_attempts.
  destruct Hfin as [-> | ->]; repeat split.
Qed.

(** The receive loop over several outcomes is the loop over the first
    one, carried on over the rest while it is still awaiting. *)
Lemma async_recv_loop_cons client r rest :
  async_recv_loop client (r :: rest) =
  let '(client1, evs1, ex1) := async_recv_loop client [r] in
  match ex1 with
  | Awaiting =>
      let '(client2, evs2, ex2) := async_recv_loop client1 rest in
      (client2, evs1 ++ evs2, ex2)
  | Break | Propagated => (client1, evs1, ex1)
  end.
Proof.
  destruct r as [[ty d] | |]; [destruct ty|..]; simpl;
    try destruct (async_recv_loop _ rest) as [[client2 evs2] ex2];
    reflexivity.
Qed.

(** [_start] sets [error_state] when no stream was obtained, and
    otherwise creates the queue and sets [connected]. *)
Lemma start_cases client outcomes :
  (exists evs,
     _start client outcomes
       = (set_error_state true (set_stream None client), evs, IoConnectFailed)
     /\ quiet evs
     /\ (_connect_with_retry client outcomes).1 = None)
  \/ (exists st evs,
        _start client outcomes
          = (set_connected true (set_job_queue [] (set_stream (Some st) client)),
             evs, IoReceiving)
        /\ quiet evs
        /\ (_connect_with_retry client outcomes).1 = Some st).
Proof.
  unfold _start. pose proof (connect_quiet client outcomes) as Hq.
  destruct (_connect_with_retry client outcomes) as [[st|] evs]; simpl in *.
  - right. exists st. eexists. split; [reflexivity|]. split; [|reflexivity].
    destruct Hq as (Ha & Hr & Hs & He). unfold quiet. simpl. proj_app.
    rewrite Ha, Hr, Hs, He. repeat split.
  - left. eexists. split; [reflexivity|]. split; [|reflexivity].
    destruct Hq as (Ha & Hr & Hs & He). unfold quiet. simpl.
    rewrite Ha, Hr, Hs, He. repeat split.
Qed.

Lemma new_blocks_snoc ls l :
  new_blocks (ls ++ [l]) = new_blocks ls ++ match new_block l with
                                            | Some x => [x]
                                            | None => []
                                            end.
Proof.
  unfold new_blocks. rewrite omap_app. simpl.
  destruct (new_block l); reflexivity.
Qed.

Lemma invariant_init a p t : invariant [] (waiting_client a p t).
Proof. split; simpl; auto. Qed.

Lemma invariant_step ls l s s' :
  invariant ls s -> step l s = Some s' -> invariant (ls ++ [l]) s'.
Proof.
  intros [Hflags Hcaller Hfifo Happ] Hstep.
  destruct l as [outcomes | r | | | block ret].
  - (* IoStart *)
    unfold step in Hstep. destruct (io s) eqn:Eio; try discriminate.
    destruct Hflags as (Hc & He & Hq). simpl in Happ.
    rewrite Hq in Hfifo. rewrite app_nil_r in Hfifo, Happ.
    destruct (start_cases (self s) outcomes)
      as [(evs & Hst & (Ha & Hr & _) & _) | (st & evs & Hst & (Ha & Hr & _) & _)];
      rewrite Hst in Hstep; injection Hstep as <-;
      split; simpl; proj_app; rewrite ?Ha, ?Hr, ?app_nil_r, ?new_blocks_snoc;
      simpl; rewrite ?app_nil_r; auto.
    all: try (destruct (caller s); auto; destruct Hcaller; congruence).
    rewrite Hq, app_nil_r. exact Hfifo.
  - (* IoRecv *)
    unfold step in Hstep. destruct (io s) eqn:Eio; try discriminate.
    simpl in Happ. rewrite app_nil_r in Happ.
    destruct r as [[ty d] | |]; [destruct ty|..]; simpl in Hstep;
      injection Hstep as <-;
      split; simpl; proj_app; simpl;
      rewrite ?app_nil_r, ?new_blocks_snoc; simpl; rewrite ?app_nil_r; auto.
    all: try (rewrite <- Hfifo, <- ?app_assoc; reflexivity).
    all: try (rewrite Happ; reflexivity).
  - (* CallerStep *)
    unfold step in Hstep. destruct (caller s) eqn:Ec; try discriminate.
    + destruct (connected (self s)) eqn:Hc; injection Hstep as <-;
        split; simpl; proj_app; simpl;
        rewrite ?app_nil_r, ?new_blocks_snoc; simpl; rewrite ?app_nil_r;
        rewrite ?Hc; auto.
    + destruct (error_state (self s)) eqn:He; injection Hstep as <-;
        split; simpl; proj_app; simpl;
        rewrite ?app_nil_r, ?new_blocks_snoc; simpl; rewrite ?app_nil_r;
        rewrite ?He; auto.
    + unfold acquire_block_pop in Hstep.
      destruct (job_queue (self s)) as [|x q] eqn:Hq; injection Hstep as <-;
        split; simpl; proj_app; simpl;
        rewrite ?app_nil_r, ?new_blocks_snoc, ?Ec, ?Hq; simpl; rewrite ?app_nil_r; auto.
      * rewrite app_nil_r in Hfifo. exact Hfifo.
      * destruct (io s); intuition congruence.
      * rewrite <- app_assoc. exact Hfifo.
  - (* Call_acquire_block *)
    unfold step in Hstep. destruct (caller s) eqn:Ec; try discriminate.
    injection Hstep as <-.
    split; simpl; proj_app; simpl;
      rewrite ?app_nil_r, ?new_blocks_snoc; simpl; rewrite ?app_nil_r; auto.
  - (* Call_release_block *)
    unfold step in Hstep. destruct (caller s) eqn:Ec; try discriminate.
    injection Hstep as <-.
    assert (appended (release_block (self s) block ret) = []
            /\ returned (release_block (self s) block ret) = []) as (Ha & Hr).
    { unfold release_block.
      destruct (ret =? 0)%Z; [|destruct (ret =? 1)%Z]; split; reflexivity. }
    split; simpl; proj_app; rewrite ?Ha, ?Hr;
      rewrite ?app_nil_r, ?new_blocks_snoc; simpl; rewrite ?app_nil_r; auto.
Qed.


Lemma invariant_run ls0 ls s0 s :
  invariant ls0 s0 -> run ls s0 = Some s -> invariant (ls0 ++ ls) s.
Proof.
  revert ls0 s0. induction ls as [|l ls IH]; simpl; intros ls0 s0 Hinv Hrun.
  - injection Hrun as <-. rewrite app_nil_r. exact Hinv.
  - destruct (step l s0) as [s1|] eqn:Hstep; [|discriminate].
    replace (ls0 ++ l :: ls) with ((ls0 ++ [l]) ++ ls)
      by (rewrite <- app_assoc; reflexivity).
    eapply IH; [|exact Hrun]. eapply invariant_step; eassumption.
Qed.

Lemma invariant_reaches ls s : reaches ls s -> invariant ls s.
Proof.
  intros (sa & sp & st & environ & s0 & Hinit & Hrun).
  apply init_waits in Hinit as (a & p & t & ->).
  apply (invariant_run [] ls _ _ (invariant_init a p t) Hrun).
Qed.

Lemma reaches_run ls ls' s s' :
  reaches ls s -> run ls' s = Some s' -> reaches (ls ++ ls') s'.
Proof.
  intros (sa & sp & st & environ & s0 & Hinit & Hrun) Hrun'.
  exists sa, sp, st, environ, s0. split; [exact Hinit|].
  rewrite run_app, Hrun. exact Hrun'.
Qed.

Lemma reachable_run ls s s' :
  reachable s -> run ls s = Some s' -> reachable s'.
Proof.
  intros [ls0 H] Hrun. exists (ls0 ++ ls). eapply reaches_run; eassumption.
Qed.

Lemma step_io_over l s s' :
  io_over (io s) = true -> step l s = Some s' ->
  io s' = io s
  /\ appended (trace s') = appended (trace s)
  /\ connected (self s') = connected (self s)
  /\ error_state (self s') = error_state (self s).
Proof.
  intros Hover Hstep. destruct l as [outcomes | r | | | block ret];
    unfold step in Hstep.
  - destruct (io s); discriminate.
  - destruct (io s); discriminate.
  - destruct (caller s); try discriminate.
    + destruct (connected (self s)) eqn:Hc; injection Hstep as <-; simpl;
        proj_app; simpl; rewrite ?app_nil_r; repeat split; congruence.
    + destruct (error_state (self s)) eqn:He; injection Hstep as <-; simpl;
        proj_app; simpl; rewrite ?app_nil_r; repeat split; congruence.
    + unfold acquire_block_pop in Hstep.
      destruct (job_queue (self s)); injection Hstep as <-; simpl;
        proj_app; simpl; rewrite ?app_nil_r; repeat split; congruence.
  - destruct (caller s); try discriminate. injection Hstep as <-. simpl.
    proj_app. simpl. rewrite app_nil_r. repeat split.
  - destruct (caller s); try discriminate. injection Hstep as <-. simpl.
    proj_app. unfold release_block.
    destruct (ret =? 0)%Z; [|destruct (ret =? 1)%Z]; simpl;
      rewrite app_nil_r; repeat split.
Qed.

Lemma run_io_over ls s s' :
  io_over (io s) = true -> run ls s = Some s' ->
  io s' = io s
  /\ appended (trace s') = appended (trace s)
  /\ connected (self s') = connected (self s)
  /\ error_state (self s') = error_state (self s).
Proof.
  revert s. induction ls as [|l ls IH]; simpl; intros s Hover Hrun.
  - injection Hrun as <-. auto.
  - destruct (step l s) as [s1|] eqn:Hstep; [|discriminate].
    destruct (step_io_over _ _ _ Hover Hstep) as (Hio & Ha & Hc & He).
    destruct (IH s1) as (Hio' & Ha' & Hc' & He'); [congruence | exact Hrun |].
    repeat split; congruence.
Qed.

Lemma sample_reaches ls s :
  run ls sample_client = Some s -> reaches ls s.
Proof.
  intros H. exists None, None, None, sample_environ, sample_client.
  split; [reflexivity | exact H].
Qed.

(** ** The two flags *)

(** C9. In every state a client can reach, [connected] and [error_state]
    are not both true. Before [_start] has gone through its connect phase
    both are false; from then on exactly one is true: [error_state] when
    [_connect_with_retry] gave [None], [connected] when it gave a
    stream, and it stays that way. *)
Theorem flags_never_both_true (s : System) :
  reachable s ->
  connected (self s) && error_state (self s) = false
  /\ (io s = IoScheduled ->
      connected (self s) = false /\ error_state (self s) = false)
  /\ (io s <> IoScheduled ->
      xorb (connected (self s)) (error_state (self s)) = true)
  /\ (error_state (self s) = true <-> io s = IoConnectFailed)
  /\ (forall outcomes s',
        step (IoStart outcomes) s = Some s' ->
        match (_connect_with_retry (self s) outcomes).1 with
        | Some st =>
            connected (self s') = true /\ error_state (self s') = false
            /\ stream (self s') = Some st
        | None =>
            connected (self s') = false /\ error_state (self s') = true
            /\ stream (self s') = None
        end).
Proof.
  intros [ls Hreach]. pose proof (invariant_reaches _ _ Hreach) as [Hf _ _ _].
  split; [|split; [|split; [|split]]].
  - destruct (io s); destruct Hf as (-> & Hf); try destruct Hf as (-> & _);
      try rewrite Hf; reflexivity.
  - intros Hio. rewrite Hio in Hf. tauto.
  - intros Hio. destruct (io s); try congruence;
      destruct Hf as (-> & ->); reflexivity.
  - split.
    + intros He. destruct (io s); try reflexivity;
        destruct Hf as (_ & Hf); try destruct Hf as (Hf & _); congruence.
    + intros Hio. rewrite Hio in Hf. tauto.
  - intros outcomes s' Hstep. unfold step in Hstep.
    destruct (io s); try discriminate. destruct Hf as (Hc & He & _).
    destruct (start_cases (self s) outcomes)
      as [(evs & Hst & _ & ->) | (st & evs & Hst & _ & ->)];
      rewrite Hst in Hstep; injection Hstep as <-; simpl; auto.
Qed.

Lemma flags_never_both_true_witness :
  reachable connected_system
  /\ connected (self connected_system) = true
  /\ error_state (self connected_system) = false
  /\ reachable failed_system
  /\ connected (self failed_system) = false
  /\ error_state (self failed_system) = true
  /\ connected (self failed_system) && error_state (self failed_system) = false
  /\ connected (self connected_system) && error_state (self connected_system) = false.
Proof.
  assert (reachable connected_system) as Hc.
  { exists [IoStart (connects_at 2)]. apply sample_reaches. reflexivity. }
  assert (reachable failed_system) as Hf.
  { exists [IoStart never_connects]. apply sample_reaches. reflexivity. }
  split; [exact Hc|]. split; [reflexivity|]. split; [reflexivity|].
  split; [exact Hf|]. split; [reflexivity|]. split; [reflexivity|].
  split.
  - exact (proj1 (flags_never_both_true failed_system Hf)).
  - exact (proj1 (flags_never_both_true connected_system Hc)).
Defined.

Lemma run_two l1 l2 s s1 s2 :
  step l1 s = Some s1 -> step l2 s1 = Some s2 -> run [l1; l2] s = Some s2.
Proof. intros H1 H2. simpl. rewrite H1, H2. reflexivity. Qed.

(** ** The wait loop of the constructor *)

(** C6. The caller of the constructor of a reachable client: while
    neither flag is set it goes round the wait loop (test [connected],
    sleep, test [error_state]); when [connected] is set the constructor
    returns at the next test; when [error_state] is set the next test of
    it logs the error and calls [sys.exit(1)], and whatever happens from
    then on the constructor never returns. An exit has code 1 and comes
    from a failed connect only, and a connect phase that ends with [None]
    sets [error_state]. *)
Theorem failed_connect_exits (s : System) :
  reachable s ->
  (connected (self s) = false -> error_state (self s) = false ->
   (caller s = InitLoopHead ->
    step CallerStep s
      = Some (mkSystem (self s) (io s) InitSleep (trace s ++ [EvSleep 100])))
   /\ (caller s = InitSleep ->
       step CallerStep s = Some (mkSystem (self s) (io s) InitLoopHead (trace s))))
  /\ (connected (self s) = true ->
      (caller s = InitLoopHead ->
       step CallerStep s = Some (mkSystem (self s) (io s) Ready (trace s)))
      /\ (caller s = InitSleep ->
          run [CallerStep; CallerStep] s
            = Some (mkSystem (self s) (io s) Ready (trace s))))
  /\ (error_state (self s) = true ->
      (caller s = InitLoopHead ->
       run [CallerStep; CallerStep] s
         = Some (mkSystem (self s) (io s) (Exited 1)
                   (trace s ++ [EvSleep 100;
                                log_event LError "Cannot connect to Daisy scheduler" [];
                                EvExit 1])))
      /\ (caller s = InitSleep ->
          step CallerStep s
            = Some (mkSystem (self s) (io s) (Exited 1)
                      (trace s ++ [log_event LError "Cannot connect to Daisy scheduler" [];
                                   EvExit 1])))
      /\ (forall ls s',
            run ls s = Some s' ->
            caller s' = InitLoopHead \/ caller s' = InitSleep
            \/ caller s' = Exited 1))
  /\ (forall code,
        caller s = Exited code ->
        code = 1%Z /\ error_state (self s) = true /\ io s = IoConnectFailed)
  /\ (forall outcomes s',
        step (IoStart outcomes) s = Some s' ->
        (_connect_with_retry (self s) outcomes).1 = None ->
        error_state (self s') = true /\ io s' = IoConnectFailed).
Proof.
  intros Hreach. pose proof Hreach as [ls Hls].
  pose proof (invariant_reaches _ _ Hls) as [Hf Hc _ _].
  split; [|split; [|split; [|split]]].
  - intros Hcon Herr. split; intros Hpc; unfold step; rewrite Hpc.
    + rewrite Hcon. reflexivity.
    + rewrite Herr. reflexivity.
  - intros Hcon.
    assert (error_state (self s) = false) as Herr.
    { destruct (io s); destruct Hf as (? & Hf); try destruct Hf as (? & _);
        congruence. }
    split; intros Hpc.
    + unfold step. rewrite Hpc, Hcon. reflexivity.
    + eapply run_two; unfold step.
      * rewrite Hpc, Herr. reflexivity.
      * simpl. rewrite Hcon. reflexivity.
  - intros Herr.
    assert (io s = IoConnectFailed /\ connected (self s) = false) as (Hio & Hcon).
    { destruct (io s); destruct Hf as (? & Hf); try destruct Hf as (? & _);
        split; congruence. }
    split; [|split].
    + intros Hpc. eapply run_two; unfold step.
      * rewrite Hpc, Hcon. reflexivity.
      * simpl. rewrite Herr, <- app_assoc. reflexivity.
    + intros Hpc. unfold step. rewrite Hpc, Herr. reflexivity.
    + intros ls' s' Hrun.
      destruct (run_io_over ls' s s') as (Hio' & _ & Hcon' & Herr');
        [rewrite Hio; reflexivity | exact Hrun |].
      pose proof (reachable_run _ _ _ Hreach Hrun) as [ls2 Hls2].
      pose proof (invariant_reaches _ _ Hls2) as [_ Hc' _ _].
      destruct (caller s') as [| | | |code]; auto.
      * congruence.
      * congruence.
      * destruct Hc' as (-> & _). auto.
  - intros code Hpc. rewrite Hpc in Hc. destruct Hc as (-> & Herr).
    split; [reflexivity|]. split; [exact Herr|].
    destruct (io s); destruct Hf as (? & Hf); try destruct Hf as (? & _);
      congruence.
  - intros outcomes s' Hstep Hnone. unfold step in Hstep.
    destruct (io s); try discriminate.
    destruct (start_cases (self s) outcomes)
      as [(evs & Hst & _ & _) | (st & evs & Hst & _ & Hsome)];
      [|congruence].
    rewrite Hst in Hstep. injection Hstep as <-. simpl. auto.
Qed.

Lemma failed_connect_exits_witness :
  reachable failed_system
  /\ error_state (self failed_system) = true
  /\ caller failed_system = InitLoopHead
  /\ run [CallerStep; CallerStep] failed_system
     = Some (mkSystem (self failed_system) (io failed_system) (Exited 1)
               (trace failed_system
                ++ [EvSleep 100;
                    log_event LError "Cannot connect to Daisy scheduler" [];
                    EvExit 1])).
Proof.
  assert (reachable failed_system) as Hf.
  { exists [IoStart never_connects]. apply sample_reaches. reflexivity. }
  split; [exact Hf|]. split; [reflexivity|]. split; [reflexivity|].
  exact (proj1 (proj1 (proj2 (proj2 (failed_connect_exits failed_system Hf)))
                  eq_refl) eq_refl).
Defined.

(** ** The work queue *)

Lemma well_typed_blocks ls :
  forallb well_typed ls = true ->
  exists blocks, new_blocks ls = map PyBlock blocks.
Proof.
  induction ls as [|l ls IH]; simpl; intros H.
  - exists []. reflexivity.
  - apply andb_prop in H as [Hl Hls]. destruct (IH Hls) as [blocks Hb].
    unfold new_blocks, well_typed in *. simpl.
    destruct (new_block l) as [x|]; simpl.
    + destruct x; try discriminate. exists (b :: blocks). rewrite Hb.
      reflexivity.
    + exists blocks. exact Hb.
Qed.

Lemma filter_is_None_blocks blocks :
  List.filter is_None (map PyBlock blocks) = [].
Proof. induction blocks as [|b bs IH]; simpl; [reflexivity | exact IH]. Qed.

Lemma not_None_in_blocks blocks : ~ In PyNone (map PyBlock blocks).
Proof.
  induction blocks as [|b bs IH]; simpl; [tauto|].
  intros [H | H]; [discriminate | exact (IH H)].
Qed.

(** C1. What a client has appended to its work queue is the payloads
    of the received [NEW_BLOCK] messages, followed by one [None] exactly
    when the receive loop has run to its end, and this is what is in the
    queue: the queue, after what [acquire_block] has taken from its head,
    is what was appended. With a scheduler that keeps to the protocol the
    payloads are blocks, so the queue and what was taken from it hold
    [None] once if the loop is over and never otherwise, as the last
    item. A [NEW_BLOCK] puts its payload at the end of the queue; both
    [TERMINATE_WORKER] and the loss of the connection end the loop and
    put one [None] at the end of the queue; and after that nothing is
    put on the queue any more. *)
Theorem one_sentinel_appended_last (ls : list label) (s : System) :
  reaches ls s ->
  appended (trace s) = new_blocks ls ++ sentinel (io s)
  /\ returned (trace s) ++ job_queue (self s) = appended (trace s)
  /\ (forallb well_typed ls = true ->
      (exists blocks,
         appended (trace s) = map PyBlock blocks ++ sentinel (io s)
         /\ returned (trace s) ++ job_queue (self s)
            = map PyBlock blocks ++ sentinel (io s))
      /\ length (List.filter is_None (appended (trace s)))
         = match io s with IoRecvExited => 1 | _ => 0 end
      /\ length (List.filter is_None (returned (trace s) ++ job_queue (self s)))
         = match io s with IoRecvExited => 1 | _ => 0 end)
  /\ (io s = IoReceiving ->
      forall d, exists s',
        step (IoRecv (RecvMessage (mkMessage NEW_BLOCK d))) s = Some s'
        /\ io s' = IoReceiving
        /\ appended (trace s') = appended (trace s) ++ [d]
        /\ job_queue (self s') = job_queue (self s) ++ [d])
  /\ (io s = IoReceiving ->
      forall d, exists s',
        step (IoRecv (RecvMessage (mkMessage TERMINATE_WORKER d))) s = Some s'
        /\ io s' = IoRecvExited
        /\ appended (trace s') = appended (trace s) ++ [PyNone]
        /\ job_queue (self s') = job_queue (self s) ++ [PyNone])
  /\ (io s = IoReceiving ->
      exists s',
        step (IoRecv RecvStreamClosedError) s = Some s'
        /\ io s' = IoRecvExited
        /\ appended (trace s') = appended (trace s) ++ [PyNone]
        /\ job_queue (self s') = job_queue (self s) ++ [PyNone])
  /\ (io s = IoRecvExited ->
      forall ls' s',
        run ls' s = Some s' ->
        io s' = IoRecvExited
        /\ appended (trace s') = appended (trace s)
        /\ returned (trace s') ++ job_queue (self s')
           = returned (trace s) ++ job_queue (self s)).
Proof.
  intros Hreach.
  pose proof (invariant_reaches _ _ Hreach) as [_ _ Hfifo Happ].
  split; [exact Happ|]. split; [exact Hfifo|].
  split; [|split; [|split; [|split]]].
  - intros Hwt. destruct (well_typed_blocks _ Hwt) as [blocks Hb].
    rewrite Hb in Happ.
    split; [exists blocks; split; congruence|].
    rewrite Hfifo, Happ, List.filter_app, filter_is_None_blocks.
    split; destruct (io s); reflexivity.
  - intros Hio d. unfold step. rewrite Hio. simpl. eexists.
    split; [reflexivity|]. split; [reflexivity|]. simpl. proj_app.
    split; reflexivity.
  - intros Hio d. unfold step. rewrite Hio. simpl. eexists.
    split; [reflexivity|]. split; [reflexivity|]. simpl. proj_app.
    split; reflexivity.
  - intros Hio. unfold step. rewrite Hio. simpl. eexists.
    split; [reflexivity|]. split; [reflexivity|]. simpl. proj_app.
    split; reflexivity.
  - intros Hio ls' s' Hrun.
    destruct (run_io_over ls' s s') as (Hio' & Ha & _);
      [rewrite Hio; reflexivity | exact Hrun |].
    pose proof (invariant_reaches _ _ (reaches_run _ _ _ _ Hreach Hrun))
      as [_ _ Hfifo' _].
    split; [congruence|]. split; congruence.
Qed.

Lemma one_sentinel_appended_last_witness :
  reaches (firstn 4 scenario) (after (firstn 4 scenario) sample_client)
  /\ appended (trace (after (firstn 4 scenario) sample_client))
     = [PyBlock block42; PyNone]
  /\ job_queue (self (after (firstn 4 scenario) sample_client))
     = [PyBlock block42; PyNone]
  /\ length (List.filter is_None
               (appended (trace (after (firstn 4 scenario) sample_client)))) = 1
  /\ length (List.filter is_None
               (returned (trace (after (firstn 4 scenario) sample_client))
                ++ job_queue (self (after (firstn 4 scenario) sample_client))))
     = 1.
Proof.
  assert (reaches (firstn 4 scenario) (after (firstn 4 scenario) sample_client))
    as Hr by (apply sample_reaches; reflexivity).
  split; [exact Hr|]. split; [reflexivity|]. split; [reflexivity|].
  exact (proj2 (proj1 (proj2 (proj2 (one_sentinel_appended_last _ _ Hr)))
                  eq_refl)).
Defined.

(** Receiving blocks puts them at the end of the queue, whatever its
    length, and touches nothing else. *)
Lemma recv_blocks blocks s :
  io s = IoReceiving ->
  exists s',
    run (map recv_new_block blocks) s = Some s'
    /\ job_queue (self s') = job_queue (self s) ++ map PyBlock blocks
    /\ io s' = IoReceiving
    /\ caller s' = caller s
    /\ returned (trace s') = returned (trace s).
Proof.
  revert s. induction blocks as [|b bs IH]; intros s Hio; simpl.
  - exists s. rewrite app_nil_r. auto.
  - unfold step. rewrite Hio. simpl.
    destruct (IH (mkSystem (set_job_queue (job_queue (self s) ++ [PyBlock b]) (self s))
                    IoReceiving (caller s)
                    (trace s ++ [log_event LDebug "Received {}" [PyBlock b];
                                 EvAppend (PyBlock b)])))
      as (s' & Hrun & Hq & Hio' & Hc & Hr); [reflexivity|].
    exists s'. split; [exact Hrun|]. simpl in *.
    rewrite Hq, <- app_assoc. proj_app. simpl in Hr.
    rewrite returned_app in Hr. simpl in Hr. rewrite app_nil_r in Hr. auto.
Qed.

(** As many calls of [acquire_block] as there are items at the head of
    the queue return these items, in their order. *)
Lemma acquire_all items rest s :
  caller s = Ready ->
  job_queue (self s) = items ++ rest ->
  exists s',
    run (concat (repeat acquire_once (length items))) s = Some s'
    /\ returned (trace s') = returned (trace s) ++ items
    /\ job_queue (self s') = rest
    /\ caller s' = Ready
    /\ io s' = io s.
Proof.
  revert s. induction items as [|x items IH]; intros s Hc Hq.
  - exists s. simpl. rewrite app_nil_r. auto.
  - cbn [length repeat concat acquire_once app run].
    unfold step at 1. rewrite Hc. unfold step at 1. simpl.
    unfold acquire_block_pop. simpl. rewrite Hq. simpl.
    match goal with
    | |- exists s', run _ ?s1 = _ /\ _ =>
        destruct (IH s1) as (s' & Hrun & Hr & Hq' & Hc' & Hio);
          [reflexivity | reflexivity |]
    end.
    exists s'. split; [exact Hrun|]. simpl in *.
    rewrite Hr. proj_app. simpl. rewrite app_nil_r, <- app_assoc. auto.
Qed.

(** C2. In every reachable state, what [acquire_block] has returned so
    far, followed by what is still queued, is the payloads of the
    [NEW_BLOCK] messages in the order of their receipt (and then the
    sentinel, once the loop is over): delivery is first in, first out.
    So once any blocks have arrived at an empty queue, as
    many calls of [acquire_block] return them in their order. Every
    received block is queued whatever the length of the queue, a block
    received before the call is returned by it, and so is a block that
    arrives while the call waits. *)
Theorem blocks_delivered_in_order :
  (forall ls s,
     reaches ls s ->
     returned (trace s) ++ job_queue (self s) = new_blocks ls ++ sentinel (io s))
  /\ (forall s blocks,
        io s = IoReceiving -> caller s = Ready -> job_queue (self s) = [] ->
        exists s',
          run (map recv_new_block blocks
               ++ concat (repeat acquire_once (length blocks))) s = Some s'
          /\ returned (trace s') = returned (trace s) ++ map PyBlock blocks
          /\ job_queue (self s') = []
          /\ caller s' = Ready)
  /\ (forall s block,
        io s = IoReceiving ->
        exists s',
          step (recv_new_block block) s = Some s'
          /\ job_queue (self s') = job_queue (self s) ++ [PyBlock block]
          /\ io s' = IoReceiving)
  /\ (forall s x rest,
        caller s = Ready -> job_queue (self s) = x :: rest ->
        exists s',
          run acquire_once s = Some s'
          /\ returned (trace s') = returned (trace s) ++ [x]
          /\ job_queue (self s') = rest)
  /\ (forall s block,
        io s = IoReceiving -> caller s = AcquireWait -> job_queue (self s) = [] ->
        exists s',
          run [recv_new_block block; CallerStep] s = Some s'
          /\ returned (trace s') = returned (trace s) ++ [PyBlock block]
          /\ caller s' = Ready).
Proof.
  split; [|split; [|split; [|split]]].
  - intros ls s Hreach.
    pose proof (invariant_reaches _ _ Hreach) as [_ _ Hfifo Happ]. congruence.
  - intros s blocks Hio Hc Hq.
    destruct (recv_blocks blocks s Hio) as (s1 & Hrun1 & Hq1 & _ & Hc1 & Hr1).
    rewrite Hq in Hq1. simpl in Hq1.
    destruct (acquire_all (map PyBlock blocks) [] s1) as (s2 & Hrun2 & Hr2 & Hq2 & Hc2 & _).
    { congruence. }
    { rewrite app_nil_r. exact Hq1. }
    exists s2. rewrite run_app, Hrun1. rewrite length_map in Hrun2.
    split; [exact Hrun2|]. rewrite Hr2, Hr1. auto.
  - intros s block Hio.
    destruct (recv_blocks [block] s Hio) as (s1 & Hrun & Hq & Hio' & _).
    cbn [map run] in Hrun.
    destruct (step (recv_new_block block) s) as [s2|]; [|discriminate].
    injection Hrun as ->. exists s1. auto.
  - intros s x rest Hc Hq.
    destruct (acquire_all [x] rest s Hc) as (s1 & Hrun & Hr & Hq' & _);
      [exact Hq|].
    exists s1. auto.
  - intros s block Hio Hc Hq. eexists. split.
    + eapply run_two; unfold step.
      * rewrite Hio. simpl. reflexivity.
      * simpl. rewrite Hc. unfold acquire_block_pop. simpl. rewrite Hq.
        simpl. reflexivity.
    + simpl. proj_app. simpl. rewrite !app_nil_r. auto.
Qed.

Lemma blocks_delivered_in_order_witness :
  exists s',
    run (map recv_new_block [block42; block43]
         ++ concat (repeat acquire_once 2))
        (after (firstn 2 scenario) sample_client) = Some s'
    /\ returned (trace s')
       = returned (trace (after (firstn 2 scenario) sample_client))
         ++ [PyBlock block42; PyBlock block43]
    /\ job_queue (self s') = []
    /\ caller s' = Ready.
Proof.
  exact (proj1 (proj2 blocks_delivered_in_order)
           (after (firstn 2 scenario) sample_client) [block42; block43]
           eq_refl eq_refl eq_refl).
Defined.

(** ** The wait of [acquire_block] *)

(** A caller that waits at an empty queue goes on waiting, and nothing is
    returned or sent, through any step after which nothing is appended:
    a step that delivers nothing, or any step once the coroutine is
    over. *)
Lemma wait_step l s s' :
  caller s = AcquireWait -> job_queue (self s) = [] ->
  delivers l = false \/ io_over (io s) = true ->
  step l s = Some s' ->
  caller s' = AcquireWait
  /\ job_queue (self s') = []
  /\ returned (trace s') = returned (trace s)
  /\ sent (trace s') = sent (trace s)
  /\ (io_over (io s) = true -> io_over (io s') = true).
Proof.
  intros Hc Hq Hl Hstep.
  destruct l as [outcomes | r | | | block ret]; unfold step in Hstep.
  - destruct (io s) eqn:Hio; try discriminate.
    destruct (start_cases (self s) outcomes)
      as [(evs & Hst & (_ & Hr & Hs & _) & _)
         | (st & evs & Hst & (_ & Hr & Hs & _) & _)];
      rewrite Hst in Hstep; injection Hstep as <-; simpl; proj_app;
      rewrite Hr, Hs, !app_nil_r; repeat split; auto.
  - destruct (io s) eqn:Hio; try discriminate.
    destruct Hl as [Hl | Hl]; [|discriminate].
    destruct r as [[ty d] | |]; [destruct ty|..]; try discriminate;
      simpl in Hstep; injection Hstep as <-; simpl; proj_app; simpl;
      rewrite ?app_nil_r; repeat split; auto.
  - rewrite Hc in Hstep. unfold acquire_block_pop in Hstep.
    rewrite Hq in Hstep. injection Hstep as <-. repeat split; auto.
  - rewrite Hc in Hstep. discriminate.
  - rewrite Hc in Hstep. discriminate.
Qed.

Lemma wait_run ls s s' :
  caller s = AcquireWait -> job_queue (self s) = [] ->
  forallb (fun l => negb (delivers l)) ls = true \/ io_over (io s) = true ->
  run ls s = Some s' ->
  caller s' = AcquireWait
  /\ job_queue (self s') = []
  /\ returned (trace s') = returned (trace s)
  /\ sent (trace s') = sent (trace s).
Proof.
  revert s. induction ls as [|l ls IH]; simpl; intros s Hc Hq Hls Hrun.
  - injection Hrun as <-. auto.
  - destruct (step l s) as [s1|] eqn:Hstep; [|discriminate].
    destruct (wait_step l s s1 Hc Hq) as (Hc1 & Hq1 & Hr1 & Hs1 & Hover);
      [|exact Hstep|].
    { destruct Hls as [Hls | Hover]; [|right; exact Hover].
      apply andb_prop in Hls as [Hl _]. left.
      apply negb_true_iff. exact Hl. }
    destruct (IH s1 Hc1 Hq1) as (Hc2 & Hq2 & Hr2 & Hs2); [|exact Hrun|].
    { destruct Hls as [Hls | Hov]; [|right; exact (Hover Hov)].
      apply andb_prop in Hls as [_ Hls]. left. exact Hls. }
    repeat split; congruence.
Qed.

(** C7. A call of [acquire_block] first hands one [WORKER_GET_BLOCK]
    message with the client's [task_id] to the event loop and then waits
    at the queue: with an item at the head it removes this one item and
    returns it, with an empty queue it waits on. Through any steps that
    deliver nothing it is still waiting, with nothing returned and
    nothing sent again. What the calls return, when the scheduler keeps
    to the protocol, are blocks and [None]. *)
Theorem acquire_block_sends_then_pops :
  (forall s,
     caller s = Ready ->
     step Call_acquire_block s
       = Some (mkSystem (self s) (io s) AcquireWait
                 (trace s
                  ++ [EvSpawnSend
                        (mkMessage WORKER_GET_BLOCK (PyStr (task_id (self s))))])))
  /\ (forall s x rest,
        caller s = AcquireWait -> job_queue (self s) = x :: rest ->
        step CallerStep s
          = Some (mkSystem (set_job_queue rest (self s)) (io s) Ready
                    (trace s ++ [log_event LDebug "Received block {}" [x];
                                 EvReturn x])))
  /\ (forall s,
        caller s = AcquireWait -> job_queue (self s) = [] ->
        step CallerStep s = Some s)
  /\ (forall s ls s',
        caller s = AcquireWait -> job_queue (self s) = [] ->
        forallb (fun l => negb (delivers l)) ls = true ->
        run ls s = Some s' ->
        caller s' = AcquireWait
        /\ returned (trace s') = returned (trace s)
        /\ sent (trace s') = sent (trace s))
  /\ (forall ls s,
        reaches ls s -> forallb well_typed ls = true ->
        forallb block_or_None (returned (trace s)) = true).
Proof.
  split; [|split; [|split; [|split]]].
  - intros s Hc. unfold step. rewrite Hc. reflexivity.
  - intros s x rest Hc Hq. unfold step, acquire_block_pop.
    rewrite Hc, Hq. reflexivity.
  - intros s Hc Hq. unfold step, acquire_block_pop. rewrite Hc, Hq.
    reflexivity.
  - intros s ls s' Hc Hq Hls Hrun.
    destruct (wait_run ls s s' Hc Hq (or_introl Hls) Hrun)
      as (Hc' & _ & Hr & Hs).
    auto.
  - intros ls s Hreach Hwt.
    pose proof (invariant_reaches _ _ Hreach) as [_ _ Hfifo Happ].
    destruct (well_typed_blocks _ Hwt) as [blocks Hb].
    assert (forallb block_or_None (returned (trace s) ++ job_queue (self s)) = true)
      as H.
    { rewrite Hfifo, Happ, Hb, forallb_app. apply andb_true_intro. split.
      - clear. induction blocks as [|b bs IH]; simpl; [reflexivity | exact IH].
      - destruct (io s); reflexivity. }
    rewrite forallb_app in H. apply andb_prop in H as [H _]. exact H.
Qed.

Lemma acquire_block_sends_then_pops_witness :
  step Call_acquire_block (after (firstn 3 scenario) sample_client)
  = Some (mkSystem (self (after (firstn 3 scenario) sample_client)) IoReceiving
            AcquireWait
            (trace (after (firstn 3 scenario) sample_client)
             ++ [EvSpawnSend (mkMessage WORKER_GET_BLOCK (PyStr "worker-7"))]))
  /\ forallb block_or_None (returned (trace drained_system)) = true.
Proof.
  split.
  - exact (proj1 acquire_block_sends_then_pops
             (after (firstn 3 scenario) sample_client) eq_refl).
  - apply (proj2 (proj2 (proj2 (proj2 acquire_block_sends_then_pops))) scenario).
    + apply sample_reaches. reflexivity.
    + reflexivity.
Defined.

(** ** After the sentinel *)

(** Once [None] has been returned, the receive loop is over and the queue
    is empty. *)
Lemma sentinel_consumed ls s :
  reaches ls s -> forallb well_typed ls = true ->
  In PyNone (returned (trace s)) ->
  io s = IoRecvExited /\ job_queue (self s) = [].
Proof.
  intros Hreach Hwt Hin.
  pose proof (invariant_reaches _ _ Hreach) as [_ _ Hfifo Happ].
  destruct (well_typed_blocks _ Hwt) as [blocks Hb].
  rewrite Happ, Hb in Hfifo.
  assert (io s = IoRecvExited) as Hio.
  { destruct (io s); try reflexivity; exfalso; simpl in Hfifo;
      rewrite app_nil_r in Hfifo;
      apply (not_None_in_blocks blocks); rewrite <- Hfifo;
      apply in_or_app; left; exact Hin. }
  split; [exact Hio|]. rewrite Hio in Hfifo. simpl in Hfifo.
  destruct (job_queue (self s)) as [|x q] using rev_ind; [reflexivity|].
  exfalso. rewrite app_assoc in Hfifo.
  apply app_inj_tail in Hfifo as [Hfifo _].
  apply (not_None_in_blocks blocks). rewrite <- Hfifo.
  apply in_or_app. left. exact Hin.
Qed.

(** C8, as the code has it. Once [None] has been returned to the user
    code, a further call of [acquire_block] sends its [WORKER_GET_BLOCK]
    message and then waits for ever: whatever happens next, the call has
    not returned and nothing new was returned. *)
Theorem acquire_after_sentinel_waits_for_ever (ls : list label) (s : System) :
  reaches ls s ->
  forallb well_typed ls = true ->
  In PyNone (returned (trace s)) ->
  caller s = Ready ->
  step Call_acquire_block s
    = Some (mkSystem (self s) (io s) AcquireWait
              (trace s
               ++ [EvSpawnSend
                     (mkMessage WORKER_GET_BLOCK (PyStr (task_id (self s))))]))
  /\ (forall ls' s',
        run (Call_acquire_block :: ls') s = Some s' ->
        caller s' = AcquireWait
        /\ returned (trace s') = returned (trace s)).
Proof.
  intros Hreach Hwt Hin Hc.
  destruct (sentinel_consumed _ _ Hreach Hwt Hin) as (Hio & Hq).
  assert (step Call_acquire_block s
          = Some (mkSystem (self s) (io s) AcquireWait
                    (trace s
                     ++ [EvSpawnSend
                           (mkMessage WORKER_GET_BLOCK (PyStr (task_id (self s))))])))
    as Hstep by (unfold step; rewrite Hc; reflexivity).
  split; [exact Hstep|].
  intros ls' s' Hrun. cbn [run] in Hrun. rewrite Hstep in Hrun.
  pose proof (fun H1 H2 H3 => wait_run ls' _ s' H1 H2 H3 Hrun) as Hw.
  simpl in Hw. rewrite Hio in Hw.
  destruct (Hw eq_refl Hq (or_intror eq_refl)) as (Hc' & _ & Hr & _).
  split; [exact Hc'|]. rewrite Hr. simpl. proj_app. simpl.
  apply app_nil_r.
Qed.

Lemma acquire_after_sentinel_waits_for_ever_witness :
  reaches scenario drained_system
  /\ In PyNone (returned (trace drained_system))
  /\ caller drained_system = Ready
  /\ (forall ls' s',
        run (Call_acquire_block :: ls') drained_system = Some s' ->
        caller s' = AcquireWait
        /\ returned (trace s') = returned (trace drained_system)).
Proof.
  assert (reaches scenario drained_system) as Hr
    by (apply sample_reaches; reflexivity).
  split; [exact Hr|]. split; [right; left; reflexivity|].
  split; [reflexivity|].
  exact (proj2 (acquire_after_sentinel_waits_for_ever scenario drained_system
                  Hr eq_refl (or_intror (or_introl eq_refl)) eq_refl)).
Defined.

(** C8, as the specification has it, fails: in the scenario of the
    specification ([NEW_BLOCK(42)], [TERMINATE_WORKER()], one call that
    returns the block and one that returns [None]), a third call is made,
    and in no continuation does it return: not with [None] again, not
    with anything. *)
Lemma third_acquire_never_returns :
  run scenario sample_client = Some drained_system
  /\ returned (trace drained_system) = [PyBlock block42; PyNone]
  /\ caller drained_system = Ready
  /\ (exists s1, step Call_acquire_block drained_system = Some s1)
  /\ (forall ls' s',
        run (Call_acquire_block :: ls') drained_system = Some s' ->
        caller s' = AcquireWait
        /\ returned (trace s') = [PyBlock block42; PyNone]).
Proof.
  split; [reflexivity|]. split; [reflexivity|]. split; [reflexivity|].
  split; [eexists; reflexivity|].
  intros ls' s' Hrun. cbn [run] in Hrun.
  destruct (step Call_acquire_block drained_system) as [s1|] eqn:Hstep;
    [|discriminate].
  vm_compute in Hstep. injection Hstep as <-.
  pose proof (fun H1 H2 H3 => wait_run ls' _ s' H1 H2 H3 Hrun) as Hw.
  simpl in Hw.
  destruct (Hw eq_refl eq_refl (or_intror eq_refl)) as (Hc' & _ & Hr & _).
  split; [exact Hc' | exact Hr].
Qed.

(** * Further properties of the code *)

(** ** The context string *)

Lemma str_split_length sep s :
  length (str_split sep s) = S (str_count sep s).
Proof.
  induction s as [|c s IH]; simpl; [reflexivity|].
  destruct (Ascii.eqb c sep); simpl.
  - rewrite IH. reflexivity.
  - pose proof (str_split_not_nil sep s) as Hne.
    destruct (str_split sep s) as [|w ws]; [congruence|]. exact IH.
Qed.

Lemma str_split_three_eq v a p t :
  str_split colon v = [a; p; t] -> v = bootstrap a p t.
Proof.
  intros H. apply str_split_cons in H as (_ & r1 & -> & H).
  apply str_split_cons in H as (_ & r2 & -> & H).
  apply str_split_cons in H as (_ & ->). reflexivity.
Qed.

Lemma init_env_cases environ v :
  environ !! "DAISY_CONTEXT" = Some v ->
  (exists a p t,
     str_split colon v = [a; p; t]
     /\ __init__ None None None environ = InitWaits (waiting_client a p t))
  \/ (length (str_split colon v) <> 3
      /\ exists evs, __init__ None None None environ = InitRaises ValueError evs).
Proof.
  intros H. unfold __init__. rewrite H.
  destruct (str_split colon v) as [|a [|p [|t [|x l]]]] eqn:Hs;
    try (right; split; [simpl; lia | eexists; reflexivity]).
  left. exists a, p, t. split; reflexivity.
Qed.

(** X1. When the constructor reads [DAISY_CONTEXT], it accepts the value
    exactly when it holds two colons, whatever stands between them: an
    empty field and a port that is no number are taken as they are. The
    three fields of an accepted value, joined by colons again, are the
    value; any other number of colons raises [ValueError]. *)
Theorem context_accepted_iff_two_colons
    (addr_arg port_arg task_arg : option string)
    (environ : gmap string string) (v : string) :
  addr_arg = None \/ port_arg = None \/ task_arg = None ->
  environ !! "DAISY_CONTEXT" = Some v ->
  ((exists s0, __init__ addr_arg port_arg task_arg environ = InitWaits s0)
   <-> str_count colon v = 2)
  /\ (forall s0,
        __init__ addr_arg port_arg task_arg environ = InitWaits s0 ->
        bootstrap (sched_addr (self s0)) (sched_port (self s0))
                  (task_id (self s0)) = v)
  /\ (str_count colon v <> 2 ->
      exists evs,
        __init__ addr_arg port_arg task_arg environ = InitRaises ValueError evs).
Proof.
  intros Hnone Hv. rewrite (init_partial _ _ _ _ Hnone).
  pose proof (str_split_length colon v) as Hlen.
  destruct (init_env_cases environ v Hv)
    as [(a & p & t & Hs & ->) | (Hbad & evs & ->)].
  - rewrite Hs in Hlen. simpl in Hlen. split; [|split].
    + split; [intros _; lia | intros _; eexists; reflexivity].
    + intros s0 H. injection H as <-. simpl. symmetry.
      apply str_split_three_eq, Hs.
    + intros Hne. lia.
  - split; [|split].
    + split; [intros [s0 H]; discriminate | intros H; lia].
    + intros s0 H. discriminate.
    + intros _. exists evs. reflexivity.
Qed.

Lemma context_accepted_iff_two_colons_witness :
  exists s0,
    __init__ None None None empty_fields_environ = InitWaits s0.
Proof.
  exact (proj2 (proj1 (context_accepted_iff_two_colons None None None
                         empty_fields_environ "::" (or_introl eq_refl) eq_refl))
           eq_refl).
Defined.

(** ** The attempts that count *)

Lemma connect_loop_agree addr port o1 o2 counter :
  counter <= 10 ->
  (forall j, counter <= j <= 10 ->
             (forall i, counter <= i < j -> o1 i = ConnectException) ->
             o1 j = o2 j) ->
  connect_loop addr port o1 counter = connect_loop addr port o2 counter.
Proof.
  intros Hle. remember (10 - counter) as n eqn:Hn.
  revert counter Hle Hn. induction n as [|n IH]; intros counter Hle Hn Hagree;
    rewrite (connect_loop_eq addr port o1), (connect_loop_eq addr port o2);
    rewrite <- (Hagree counter) by (try lia; intros i Hi; lia);
    destruct (o1 counter) eqn:Ho; try reflexivity;
    destruct (gt_dec (counter + 1) 10) as [Hgt | Hngt]; try reflexivity;
    try lia.
  rewrite (IH (counter + 1)); [reflexivity | lia | lia |].
  intros j Hj Hfail. apply Hagree; [lia|].
  intros i Hi. destruct (Nat.eq_dec i counter) as [-> | Hne]; [exact Ho|].
  apply Hfail. lia.
Qed.

(** X2. [_connect_with_retry] looks at no attempt after the first one
    that connects, and at none after the eleventh: two networks that
    answer alike up to there give the same stream, or the same [None],
    after the same attempts and sleeps. *)
Theorem connect_decided_by_first_attempts
    (client : ClientScheduler) (o1 o2 : nat -> connect_outcome) :
  (forall j, j <= 10 ->
             (forall i, i < j -> o1 i = ConnectException) ->
             o1 j = o2 j) ->
  _connect_with_retry client o1 = _connect_with_retry client o2.
Proof.
  intros Hagree. unfold _connect_with_retry.
  apply connect_loop_agree; [lia|].
  intros j Hj Hfail. apply Hagree; [lia|]. intros i Hi. apply Hfail. lia.
Qed.

Lemma connect_decided_by_first_attempts_witness :
  _connect_with_retry (self sample_client) (connects_at 2)
  = _connect_with_retry (self sample_client)
      (fun k => if Nat.eqb k 2 then ConnectOk (mkIOStream 3) else ConnectException).
Proof.
  apply connect_decided_by_first_attempts.
  intros j Hj Hfail.
  destruct j as [|[|[|j]]]; try reflexivity.
  specialize (Hfail 2). simpl in Hfail. discriminate Hfail. lia.
Defined.

(** ** Induction over the steps of a client *)

Lemma run_snoc_inv ls l s s' :
  run (ls ++ [l]) s = Some s' ->
  exists s1, run ls s = Some s1 /\ step l s1 = Some s'.
Proof.
  rewrite run_app. destruct (run ls s) as [s1|]; [|discriminate]. simpl.
  destruct (step l s1) as [s2|] eqn:Hs; [|discriminate].
  intros H. exists s1. split; [reflexivity | congruence].
Qed.

Lemma reaches_ind (P : list label -> System -> Prop) :
  (forall a p t, P [] (waiting_client a p t)) ->
  (forall ls s l s',
     reaches ls s -> P ls s -> step l s = Some s' -> P (ls ++ [l]) s') ->
  forall ls s, reaches ls s -> P ls s.
Proof.
  intros Hinit Hstep ls. induction ls as [|l ls IH] using rev_ind; intros s Hr.
  - destruct Hr as (sa & sp & st & environ & s0 & Hi & Hrun).
    apply init_waits in Hi as (a & p & t & ->). injection Hrun as <-.
    apply Hinit.
  - destruct Hr as (sa & sp & st & environ & s0 & Hi & Hrun).
    apply run_snoc_inv in Hrun as (s1 & Hrun & Hs).
    assert (reaches ls s1) as Hr1 by (exists sa, sp, st, environ, s0; auto).
    eapply Hstep; [exact Hr1 | apply IH, Hr1 | exact Hs].
Qed.

(** The cases of a step. *)
Ltac step_cases H :=
  match type of H with
  | step ?l ?s = Some _ =>
      destruct l as [?outcomes | ?r | | | ?block ?ret]; unfold step in H;
      [ let Hio := fresh "Hio" in
        destruct (io s) eqn:Hio; try discriminate H;
        let evs := fresh "evs" in let Hst := fresh "Hst" in
        let Hquiet := fresh "Hquiet" in let Hres := fresh "Hres" in
        let st := fresh "st" in
        destruct (start_cases (self s) outcomes)
          as [(evs & Hst & Hquiet & Hres) | (st & evs & Hst & Hquiet & Hres)];
        rewrite Hst in H; injection H as <-
      | let Hio := fresh "Hio" in
        destruct (io s) eqn:Hio; try discriminate H;
        let ty := fresh "ty" in let d := fresh "d" in
        destruct r as [[ty d] | |]; [destruct ty|..]; simpl in H;
        injection H as <-
      | let Hcaller := fresh "Hcaller" in
        destruct (caller s) eqn:Hcaller; try discriminate H;
        [ let Hconn := fresh "Hconn" in
          destruct (connected (self s)) eqn:Hconn; injection H as <-
        | let Herr := fresh "Herr" in
          destruct (error_state (self s)) eqn:Herr; injection H as <-
        | unfold acquire_block_pop in H;
          let Hqueue := fresh "Hqueue" in
          destruct (job_queue (self s)) as [|?x ?q] eqn:Hqueue;
          injection H as <- ]
      | let Hcaller := fresh "Hcaller" in
        destruct (caller s) eqn:Hcaller; try discriminate H; injection H as <-
      | let Hcaller := fresh "Hcaller" in
        destruct (caller s) eqn:Hcaller; try discriminate H; injection H as <- ]
  end.

Lemma sent_release_block client block ret :
  sent (release_block client block ret)
  = [mkMessage WORKER_RET_BLOCK
       (PyTuple (PyTuple (PyStr (task_id client)) (PyInt (block_id block)))
                (PyReturnCode (return_code ret)))]
  /\ returned (release_block client block ret) = []
  /\ appended (release_block client block ret) = []
  /\ connects (release_block client block ret) = [].
Proof.
  unfold release_block, return_code.
  destruct (ret =? 0)%Z; [|destruct (ret =? 1)%Z]; repeat split.
Qed.

Lemma step_config l s s' :
  step l s = Some s' ->
  sched_addr (self s') = sched_addr (self s)
  /\ sched_port (self s') = sched_port (self s)
  /\ task_id (self s') = task_id (self s).
Proof. intros H. step_cases H; simpl; auto. Qed.

Lemma omap_snoc {A B} (f : A -> option B) l x :
  omap f (l ++ [x]) = omap f l ++ match f x with Some y => [y] | None => [] end.
Proof. rewrite omap_app. simpl. destruct (f x); reflexivity. Qed.

Lemma start_connects client outcomes :
  exists k,
    k <= 10
    /\ connects (_start client outcomes).1.2
       = repeat (sched_addr client, sched_port client, 60%Z) (S k).
Proof.
  unfold _start, _connect_with_retry.
  destruct (connect_loop_spec (sched_addr client) (sched_port client) outcomes 0)
    as (k & Hk & _ & [(st & _ & ->) | (_ & _ & ->)]); [lia | |];
    exists k; (split; [lia|]); simpl; proj_app;
    rewrite connects_failed_attempts; simpl;
    rewrite ?app_nil_r, <- repeat_cons; reflexivity.
Qed.

Ltac ledger_simpl :=
  simpl; proj_app;
  repeat match goal with
         | H : quiet _ |- _ => destruct H as (? & ? & ? & ?)
         end;
  repeat match goal with
         | H : sent ?e = [] |- context [sent ?e] => rewrite H
         | H : returned ?e = [] |- context [returned ?e] => rewrite H
         | H : appended ?e = [] |- context [appended ?e] => rewrite H
         end;
  repeat match goal with
         | |- context [sent (release_block ?c ?b ?r)] =>
             rewrite (proj1 (sent_release_block c b r))
         | |- context [returned (release_block ?c ?b ?r)] =>
             rewrite (proj1 (proj2 (sent_release_block c b r)))
         | |- context [connects (release_block ?c ?b ?r)] =>
             rewrite (proj2 (proj2 (proj2 (sent_release_block c b r))))
         end;
  simpl; rewrite ?app_nil_r.

Lemma ledger_step ls l s s' :
  invariant ls s -> ledger ls s -> step l s = Some s' -> ledger (ls ++ [l]) s'.
Proof.
  intros [Hflags Hcall _ _] [Hsent Hreq Hstream (k & Hk & Hconn & Hk0)] Hstep.
  pose proof (step_config _ _ _ Hstep) as (Ha & Hp & Ht).
  split.
  - rewrite omap_snoc, Ht, <- Hsent. clear Hreq Hstream Hconn Hsent.
    step_cases Hstep; ledger_simpl; auto.
  - clear Hsent Hstream Hconn Ha Hp Ht.
    step_cases Hstep; ledger_simpl;
      rewrite ?List.filter_app, ?length_app; simpl;
      try rewrite Hcaller in Hreq; simpl in Hreq; try lia.
    rewrite Hcaller. simpl. lia.
  - clear Hsent Hreq Hconn Ha Hp Ht.
    step_cases Hstep; simpl; try rewrite Hio in Hstream; eauto.
  - rewrite Ha, Hp. clear Hsent Hreq Hstream Ha Hp Ht.
    step_cases Hstep;
      lazymatch goal with
      | Hst : _start _ ?o = _ |- _ =>
          destruct (start_connects (self s) o) as (k' & Hk' & Hc');
          rewrite Hst in Hc'; simpl in Hc';
          assert (k = 0) as -> by (apply Hk0; reflexivity); simpl in Hconn;
          exists (S k'); simpl; (split; [lia|]);
          (split; [proj_app; rewrite Hconn, Hc'; reflexivity|]);
          split; discriminate
      | _ =>
          exists k; (split; [exact Hk|]); ledger_simpl;
          (split; [exact Hconn|]);
          first [ exact Hk0
                | split; [intros Hz; apply Hk0 in Hz; discriminate
                         | discriminate] ]
      end.
Qed.

Lemma ledger_reaches ls s : reaches ls s -> ledger ls s.
Proof.
  intros Hr. pose proof Hr as H. revert ls s H Hr.
  apply (reaches_ind (fun ls s => reaches ls s -> ledger ls s)).
  - intros a p t _. split; simpl; auto. exists 0.
    split; [lia|]. split; [reflexivity|]. split; reflexivity.
  - intros ls s l s' Hr IH Hstep _.
    eapply ledger_step; [apply invariant_reaches, Hr | apply IH, Hr | exact Hstep].
Qed.

(** ** The scheduler a client talks to *)

Lemma run_config ls s s' :
  run ls s = Some s' ->
  sched_addr (self s') = sched_addr (self s)
  /\ sched_port (self s') = sched_port (self s)
  /\ task_id (self s') = task_id (self s).
Proof.
  revert s. induction ls as [|l ls IH]; simpl; intros s Hrun.
  - injection Hrun as <-. auto.
  - destruct (step l s) as [s1|] eqn:Hstep; [|discriminate].
    destruct (step_config _ _ _ Hstep) as (Ha & Hp & Ht).
    destruct (IH _ Hrun) as (Ha' & Hp' & Ht'). repeat split; congruence.
Qed.

Lemma step_no_connect l s s' :
  io s <> IoScheduled -> step l s = Some s' ->
  io s' <> IoScheduled /\ connects (trace s') = connects (trace s).
Proof.
  intros Hio Hstep.
  step_cases Hstep; try congruence; ledger_simpl;
    (split; [first [exact Hio | discriminate] | reflexivity]).
Qed.

Lemma run_no_connect ls s s' :
  io s <> IoScheduled -> run ls s = Some s' ->
  connects (trace s') = connects (trace s).
Proof.
  revert s. induction ls as [|l ls IH]; simpl; intros s Hio Hrun.
  - injection Hrun as <-. reflexivity.
  - destruct (step l s) as [s1|] eqn:Hstep; [|discriminate].
    destruct (step_no_connect _ _ _ Hio Hstep) as (Hio1 & Hc).
    rewrite (IH _ Hio1 Hrun). exact Hc.
Qed.

(** X3. The address, the port and the task of a client never change.
    All the connect attempts of a client go to this address and port with
    a timeout of 60 seconds; there are eleven at most, all made by
    [_start], and once [_start] is through its connect phase no step
    makes another: a lost connection is not made again. *)
Theorem one_scheduler_one_connect_phase (ls : list label) (s : System) :
  reaches ls s ->
  (exists k,
     k <= 11
     /\ connects (trace s)
        = repeat (sched_addr (self s), sched_port (self s), 60%Z) k
     /\ (k = 0 <-> io s = IoScheduled))
  /\ (forall ls' s',
        run ls' s = Some s' ->
        sched_addr (self s') = sched_addr (self s)
        /\ sched_port (self s') = sched_port (self s)
        /\ task_id (self s') = task_id (self s)
        /\ (io s <> IoScheduled -> connects (trace s') = connects (trace s))).
Proof.
  intros Hr. split.
  - apply (led_connects _ _ (ledger_reaches _ _ Hr)).
  - intros ls' s' Hrun. destruct (run_config _ _ _ Hrun) as (Ha & Hp & Ht).
    repeat split; try assumption.
    intros Hio. exact (run_no_connect _ _ _ Hio Hrun).
Qed.

Lemma one_scheduler_one_connect_phase_witness :
  reaches scenario drained_system
  /\ exists k,
       k <= 11
       /\ connects (trace drained_system) = repeat ("10.0.0.5", "9000", 60%Z) k
       /\ (k = 0 <-> io drained_system = IoScheduled).
Proof.
  assert (reaches scenario drained_system) as Hr
    by (apply sample_reaches; reflexivity).
  split; [exact Hr|].
  exact (proj1 (one_scheduler_one_connect_phase scenario drained_system Hr)).
Defined.

(** ** What a client sends *)

Lemma exiting_count ls s :
  reaches ls s ->
  length (List.filter is_exiting (sent (trace s)))
  <= match io s with IoRecvExited => 1 | _ => 0 end.
Proof.
  revert ls s.
  apply (reaches_ind
           (fun _ s => length (List.filter is_exiting (sent (trace s)))
                       <= match io s with IoRecvExited => 1 | _ => 0 end)).
  - intros a p t. simpl. lia.
  - intros ls s l s' _ IH Hstep.
    step_cases Hstep; ledger_simpl;
      rewrite ?List.filter_app, ?length_app; simpl;
      try rewrite Hio in IH; simpl in IH; try lia.
    all: destruct (io s); simpl in *; lia.
Qed.

(** X4. What a client has handed to the event loop is, message for
    message and in this order, what its steps call for: one
    [WORKER_GET_BLOCK] with its task for every call of [acquire_block],
    one [WORKER_RET_BLOCK] with its task, the block's id and the return
    code for every call of [release_block], one [WORKER_EXITING] for a
    [TERMINATE_WORKER] received, and nothing else: nothing for a block
    received, nothing when the connection is lost. [WORKER_EXITING] is
    sent once at most, and only by a receive loop that is over. *)
Theorem sent_is_one_message_per_step (ls : list label) (s : System) :
  reaches ls s ->
  sent (trace s) = omap (outbound (task_id (self s))) ls
  /\ length (List.filter is_exiting (sent (trace s))) <= 1
  /\ (io s <> IoRecvExited -> List.filter is_exiting (sent (trace s)) = []).
Proof.
  intros Hr. pose proof (exiting_count _ _ Hr) as Hex.
  split; [apply (led_sent _ _ (ledger_reaches _ _ Hr))|].
  split.
  - destruct (io s); lia.
  - intros Hio. destruct (io s); try congruence;
      destruct (List.filter is_exiting (sent (trace s))); simpl in Hex;
      try reflexivity; lia.
Qed.

Lemma sent_is_one_message_per_step_witness :
  reaches scenario drained_system
  /\ sent (trace drained_system)
     = [mkMessage WORKER_EXITING PyNone;
        mkMessage WORKER_GET_BLOCK (PyStr "worker-7");
        mkMessage WORKER_GET_BLOCK (PyStr "worker-7")].
Proof.
  assert (reaches scenario drained_system) as Hr
    by (apply sample_reaches; reflexivity).
  split; [exact Hr|].
  exact (proj1 (sent_is_one_message_per_step scenario drained_system Hr)).
Defined.

(** X5. A client has sent as many [WORKER_GET_BLOCK] requests as
    [acquire_block] has returned values, and one more while a call
    waits: no value is returned that was not asked for, and no request
    is repeated while its call waits. *)
Theorem requests_match_returns (ls : list label) (s : System) :
  reaches ls s ->
  length (List.filter is_request (sent (trace s)))
  = length (returned (trace s)) + waiting (caller s).
Proof. intros Hr. apply (led_requests _ _ (ledger_reaches _ _ Hr)). Qed.

Lemma requests_match_returns_witness :
  reaches scenario drained_system
  /\ length (List.filter is_request (sent (trace drained_system))) = 2 + 0.
Proof.
  assert (reaches scenario drained_system) as Hr
    by (apply sample_reaches; reflexivity).
  split; [exact Hr|].
  exact (requests_match_returns scenario drained_system Hr).
Defined.

(** ** [async_send] *)

Lemma sent_needs_stream ls s :
  reaches ls s -> stream (self s) = None -> sent (trace s) = [].
Proof.
  intros Hr. pose proof Hr as H. revert ls s H Hr.
  apply (reaches_ind
           (fun ls s => reaches ls s ->
                        stream (self s) = None -> sent (trace s) = [])).
  - reflexivity.
  - intros ls s l s' Hr IH Hstep _ Hnone. specialize (IH Hr).
    pose proof (invariant_reaches _ _ Hr) as [Hflags Hcall _ _].
    pose proof (ledger_reaches _ _ Hr) as [_ _ Hstream _].
    step_cases Hstep; simpl in Hnone; ledger_simpl;
      try (apply IH; assumption);
      try discriminate Hnone;
      exfalso;
      try (match goal with
           | H : exists _, stream _ = Some _ |- _ => destruct H; congruence
           end);
      destruct (io s);
      try (match goal with
           | H : exists _, stream _ = Some _ |- _ => destruct H; congruence
           end);
      destruct Hflags as (Hc & _); congruence.
Qed.

Lemma run_callbacks_with_stream {bytes} (pack : SchedulerMessage -> bytes)
    client st msgs outcomes :
  stream client = Some st ->
  raised bytes (run_callbacks bytes pack client msgs outcomes) = false
  /\ sublist (written bytes (run_callbacks bytes pack client msgs outcomes))
             (map pack msgs)
  /\ length (written bytes (run_callbacks bytes pack client msgs outcomes))
     + length (closed_logged bytes (run_callbacks bytes pack client msgs outcomes))
     = Nat.min (length msgs) (length outcomes)
  /\ (Forall (fun o => o = WriteDone) outcomes ->
      length msgs <= length outcomes ->
      written bytes (run_callbacks bytes pack client msgs outcomes)
      = map pack msgs).
Proof.
  intros Hst. unfold run_callbacks. revert outcomes.
  induction msgs as [|m msgs IH]; intros outcomes.
  - simpl. repeat split; auto.
  - destruct outcomes as [|o outcomes].
    + simpl. repeat split; auto; [apply sublist_nil_l | simpl; lia].
    + destruct (IH outcomes) as (Hr & Hs & Hl & Hall).
      cbn [zip_with].
      remember (zip_with (fun m o => async_send bytes client (pack m) o)
                  msgs outcomes) as rest eqn:Hrest.
      unfold async_send. rewrite Hst. destruct o; simpl.
      * split; [exact Hr|]. split; [apply sublist_skip, Hs|].
        split; [simpl in Hl; lia|].
        intros HF Hlen. apply Forall_cons in HF as [_ HF].
        f_equal. apply Hall; [exact HF | lia].
      * split; [exact Hr|]. split; [apply sublist_cons, Hs|].
        split; [simpl in Hl; lia|].
        intros HF. apply Forall_cons in HF as [HF _]. discriminate.
Qed.

(** X6. Every [async_send] that a client has spawned finds a stream:
    none is left by the missing attribute of [None]. Run in the order of
    the spawns, each with the outcome of its write, they put on the
    stream packed messages of those sent, in their order and with none
    twice; every one that has run has written its message or has logged
    the closed stream, and none raises; when no write fails, what is on
    the stream is all that was sent. *)
Theorem spawned_sends_write_or_log
    (bytes : Type) (pack : SchedulerMessage -> bytes)
    (ls : list label) (s : System) (outcomes : list write_outcome) :
  reaches ls s ->
  raised bytes (run_callbacks bytes pack (self s) (sent (trace s)) outcomes)
  = false
  /\ sublist
       (written bytes (run_callbacks bytes pack (self s) (sent (trace s)) outcomes))
       (map pack (sent (trace s)))
  /\ length (written bytes
               (run_callbacks bytes pack (self s) (sent (trace s)) outcomes))
     + length (closed_logged bytes
                 (run_callbacks bytes pack (self s) (sent (trace s)) outcomes))
     = Nat.min (length (sent (trace s))) (length outcomes)
  /\ (Forall (fun o => o = WriteDone) outcomes ->
      length (sent (trace s)) <= length outcomes ->
      written bytes (run_callbacks bytes pack (self s) (sent (trace s)) outcomes)
      = map pack (sent (trace s))).
Proof.
  intros Hr. destruct (stream (self s)) as [st|] eqn:Hst.
  - exact (run_callbacks_with_stream pack (self s) st _ outcomes Hst).
  - rewrite (sent_needs_stream _ _ Hr Hst). simpl.
    repeat split; auto.
Qed.

Lemma spawned_sends_write_or_log_witness :
  reaches scenario drained_system
  /\ written SchedulerMessage
       (run_callbacks SchedulerMessage (fun m => m) (self drained_system)
          (sent (trace drained_system)) [WriteDone; WriteDone; WriteDone])
     = map (fun m => m) (sent (trace drained_system)).
Proof.
  assert (reaches scenario drained_system) as Hr
    by (apply sample_reaches; reflexivity).
  split; [exact Hr|].
  apply (proj2 (proj2 (proj2 (spawned_sends_write_or_log SchedulerMessage
                                 (fun m => m) scenario drained_system
                                 [WriteDone; WriteDone; WriteDone] Hr)))).
  - repeat constructor.
  - vm_compute. lia.
Defined.

(** ** An exception out of the read *)

Lemma blocks_only blocks r q :
  r ++ q = map PyBlock blocks -> forallb is_Block r = true.
Proof.
  intros H.
  assert (forallb is_Block (r ++ q) = true) as Hall.
  { rewrite H. clear. induction blocks as [|b bs IH]; simpl; auto. }
  rewrite forallb_app in Hall. apply andb_prop in Hall as [Hall _]. exact Hall.
Qed.

(** X7. When a read of the receive loop raises anything but
    [StreamClosedError], the coroutine is over without the final append:
    from then on nothing is appended, no [None] among it, so with a
    scheduler that keeps to the protocol [acquire_block] only ever
    returns blocks, and a call that waits at the empty queue waits for
    ever. *)
Theorem uncaught_exception_leaves_no_sentinel (ls : list label) (s : System) :
  reaches ls s ->
  (io s = IoReceiving ->
   exists s',
     step (IoRecv RecvOtherException) s = Some s'
     /\ io s' = IoCrashed
     /\ self s' = self s
     /\ appended (trace s') = appended (trace s))
  /\ (io s = IoCrashed ->
      forall ls' s',
        run ls' s = Some s' ->
        io s' = IoCrashed
        /\ appended (trace s') = new_blocks ls
        /\ (forallb well_typed ls = true ->
            forallb is_Block (returned (trace s')) = true)
        /\ (caller s = AcquireWait -> job_queue (self s) = [] ->
            caller s' = AcquireWait
            /\ returned (trace s') = returned (trace s))).
Proof.
  intros Hr. split.
  - intros Hio. unfold step. rewrite Hio. simpl. eexists.
    split; [reflexivity|]. simpl. proj_app. simpl. rewrite app_nil_r. auto.
  - intros Hio ls' s' Hrun.
    pose proof (invariant_reaches _ _ Hr) as [_ _ _ Happ].
    rewrite Hio in Happ. simpl in Happ. rewrite app_nil_r in Happ.
    destruct (run_io_over ls' s s') as (Hio' & Ha & _);
      [rewrite Hio; reflexivity | exact Hrun |].
    split; [congruence|]. split; [congruence|]. split.
    + intros Hwt. destruct (well_typed_blocks _ Hwt) as [blocks Hb].
      pose proof (invariant_reaches _ _ (reaches_run _ _ _ _ Hr Hrun))
        as [_ _ Hfifo _].
      apply (blocks_only blocks _ (job_queue (self s'))). congruence.
    + intros Hc Hq.
      destruct (wait_run ls' s s' Hc Hq) as (Hc' & _ & Hret & _);
        [right; rewrite Hio; reflexivity | exact Hrun |].
      auto.
Qed.

Lemma uncaught_exception_leaves_no_sentinel_witness :
  reaches crash_scenario crashed_system
  /\ io crashed_system = IoCrashed
  /\ caller crashed_system = AcquireWait
  /\ returned (trace crashed_system) = [PyBlock block42]
  /\ (forall ls' s',
        run ls' crashed_system = Some s' ->
        caller s' = AcquireWait
        /\ returned (trace s') = returned (trace crashed_system)).
Proof.
  assert (reaches crash_scenario crashed_system) as Hr
    by (apply sample_reaches; reflexivity).
  split; [exact Hr|]. split; [reflexivity|]. split; [reflexivity|].
  split; [reflexivity|].
  intros ls' s' Hrun.
  exact (proj2 (proj2 (proj2
           (proj2 (uncaught_exception_leaves_no_sentinel _ _ Hr) eq_refl
              ls' s' Hrun))) eq_refl eq_refl).
Defined.

(** ** The loop of the docstring *)

Lemma recv_blocks_quiet blocks s :
  io s = IoReceiving ->
  exists s',
    run (map recv_new_block blocks) s = Some s'
    /\ job_queue (self s') = job_queue (self s) ++ map PyBlock blocks
    /\ io s' = IoReceiving
    /\ caller s' = caller s
    /\ returned (trace s') = returned (trace s)
    /\ sent (trace s') = sent (trace s)
    /\ task_id (self s') = task_id (self s).
Proof.
  revert s. induction blocks as [|b bs IH]; intros s Hio.
  - exists s. simpl. rewrite app_nil_r. repeat split; auto.
  - cbn [map run]. unfold step, recv_new_block. rewrite Hio.
    cbn [async_recv async_recv_loop type data].
    match goal with
    | |- exists s', run _ ?s1 = _ /\ _ =>
        destruct (IH s1) as (s' & Hrun & Hq & Hio' & Hc & Hr & Hs & Ht);
          [reflexivity|]
    end.
    exists s'. split; [exact Hrun|]. simpl in *.
    rewrite Hq, Hr, Hs, Ht, <- app_assoc. proj_app. simpl.
    rewrite !app_nil_r. repeat split; auto.
Qed.

Lemma worker_iterations work rest s :
  caller s = Ready ->
  job_queue (self s) = map PyBlock (map fst work) ++ rest ->
  exists s',
    run (concat (map (fun w => acquire_once ++ [Call_release_block w.1 w.2]) work))
        s = Some s'
    /\ returned (trace s') = returned (trace s) ++ map PyBlock (map fst work)
    /\ sent (trace s')
       = sent (trace s)
         ++ concat (map (fun w =>
                           [mkMessage WORKER_GET_BLOCK (PyStr (task_id (self s)));
                            mkMessage WORKER_RET_BLOCK
                              (PyTuple (PyTuple (PyStr (task_id (self s)))
                                                (PyInt (block_id w.1)))
                                       (PyReturnCode (return_code w.2)))]) work)
    /\ job_queue (self s') = rest
    /\ caller s' = Ready
    /\ io s' = io s
    /\ task_id (self s') = task_id (self s).
Proof.
  revert s. induction work as [|[b r] work IH]; intros s Hc Hq.
  - exists s. simpl. rewrite !app_nil_r. repeat split; auto.
  - cbn [map concat acquire_once app run fst snd].
    unfold step at 1. rewrite Hc.
    unfold step at 1. cbn [caller self]. unfold acquire_block_pop.
    cbn [job_queue]. rewrite Hq. cbn [map fst app].
    unfold step at 1. cbn [caller self].
    match goal with
    | |- exists s', run _ ?s1 = _ /\ _ =>
        destruct (IH s1) as (s' & Hrun & Hr & Hs & Hq' & Hc' & Hio & Ht);
          [reflexivity | reflexivity |]
    end.
    exists s'. split; [exact Hrun|]. simpl in *.
    rewrite Hr, Hs, Hq', Hc', Hio, Ht. ledger_simpl.
    rewrite <- !app_assoc. simpl. repeat split; reflexivity.
Qed.

(** X8. The loop of the class docstring, run after the scheduler has
    sent any blocks and then [TERMINATE_WORKER]: it gets the blocks in
    their order and then [None], and ends there. What the client sends
    meanwhile is [WORKER_EXITING], then for each block its request and
    its result with the return code of the user's integer, and the one
    request that [None] answers; the queue is left empty. *)
Theorem docstring_loop_runs_to_the_end (s : System) (work : list (Block * Z)) :
  io s = IoReceiving -> caller s = Ready -> job_queue (self s) = [] ->
  exists s',
    run (map recv_new_block (map fst work) ++ [recv_terminate]
         ++ worker_loop work) s = Some s'
    /\ returned (trace s')
       = returned (trace s) ++ map PyBlock (map fst work) ++ [PyNone]
    /\ sent (trace s')
       = sent (trace s) ++ [mkMessage WORKER_EXITING PyNone]
         ++ worker_messages (task_id (self s)) work
    /\ caller s' = Ready
    /\ job_queue (self s') = []
    /\ io s' = IoRecvExited.
Proof.
  intros Hio Hc Hq.
  destruct (recv_blocks_quiet (map fst work) s Hio)
    as (s1 & Hrun1 & Hq1 & Hio1 & Hc1 & Hr1 & Hs1 & Ht1).
  rewrite Hq in Hq1. simpl in Hq1.
  rewrite run_app, Hrun1. cbn [app run]. unfold step at 1, recv_terminate.
  rewrite Hio1. cbn [async_recv async_recv_loop type data send app].
  unfold worker_loop. rewrite run_app.
  match goal with
  | |- exists s', match run _ ?s2 with _ => _ end = _ /\ _ =>
      destruct (worker_iterations work [PyNone] s2)
        as (s3 & Hrun3 & Hr3 & Hs3 & Hq3 & Hc3 & Hio3 & Ht3);
        [simpl; congruence | simpl; rewrite Hq1; reflexivity |]
  end.
  rewrite Hrun3. cbn [acquire_once run]. unfold step at 1. rewrite Hc3.
  unfold step at 1. cbn [caller self]. unfold acquire_block_pop.
  rewrite Hq3. eexists. split; [reflexivity|].
  simpl in *. unfold worker_messages. ledger_simpl.
  rewrite Hr3, Hs3, Hio3, ?Ht3, ?Ht1. ledger_simpl. rewrite Hr1, Hs1.
  rewrite <- !app_assoc. simpl. repeat split; reflexivity.
Qed.

Lemma docstring_loop_runs_to_the_end_witness :
  exists s',
    run (map recv_new_block [block42; block43] ++ [recv_terminate]
         ++ worker_loop [(block42, 0%Z); (block43, 7%Z)])
        (after (firstn 2 scenario) sample_client) = Some s'
    /\ returned (trace s') = [PyBlock block42; PyBlock block43; PyNone]
    /\ sent (trace s')
       = [mkMessage WORKER_EXITING PyNone]
         ++ worker_messages "worker-7" [(block42, 0%Z); (block43, 7%Z)]
    /\ caller s' = Ready
    /\ job_queue (self s') = []
    /\ io s' = IoRecvExited.
Proof.
  exact (docstring_loop_runs_to_the_end (after (firstn 2 scenario) sample_client)
           [(block42, 0%Z); (block43, 7%Z)] eq_refl eq_refl eq_refl).
Defined.

(** ** The constructor from start to end *)

Lemma poll_rounds_run n client pc t :
  connected client = false -> error_state client = false ->
  run (poll_rounds n) (mkSystem client pc InitLoopHead t)
  = Some (mkSystem client pc InitLoopHead (t ++ repeat (EvSleep 100) n)).
Proof.
  intros Hc He. revert t. induction n as [|n IH]; intros t.
  - simpl. rewrite app_nil_r. reflexivity.
  - unfold poll_rounds. cbn [repeat concat app run].
    unfold step at 1. cbn [caller self]. rewrite Hc.
    unfold step at 1. cbn [caller self]. rewrite He.
    fold (poll_rounds n). cbn [io trace]. rewrite IH, <- app_assoc.
    reflexivity.
Qed.

(** X9. The constructor, from its wait loop on and whatever the number
    of turns of the loop before [_start] is through: when one of the
    first eleven connect attempts gives a stream, the next test of
    [connected] ends the loop and the constructor returns a connected
    client that holds this stream, with no exit; when all eleven fail,
    the next test of [error_state] logs the error and exits with code 1,
    once. *)
Theorem constructor_returns_or_exits
    (a p t : string) (outcomes : nat -> connect_outcome) (n : nat) :
  match (_connect_with_retry (self (waiting_client a p t)) outcomes).1 with
  | Some st =>
      exists s',
        run (poll_rounds n ++ [IoStart outcomes; CallerStep])
            (waiting_client a p t) = Some s'
        /\ caller s' = Ready
        /\ connected (self s') = true
        /\ error_state (self s') = false
        /\ stream (self s') = Some st
        /\ exits (trace s') = []
  | None =>
      exists s',
        run (poll_rounds n ++ [IoStart outcomes; CallerStep; CallerStep])
            (waiting_client a p t) = Some s'
        /\ caller s' = Exited 1
        /\ error_state (self s') = true
        /\ exits (trace s') = [1%Z]
        /\ last (logged (trace s'))
           = Some (mkLog LError "Cannot connect to Daisy scheduler" [])
  end.
Proof.
  unfold waiting_client.
  set (client := mkClient false false None a p t []).
  set (t0 := [log_event LInfo "ClientScheduler init" [];
              log_event LInfo "Waiting for connection to Daisy scheduler..." []]).
  cbn [self].
  destruct (start_cases client outcomes)
    as [(evs & Hst & (_ & _ & _ & Hex) & ->)
       | (st & evs & Hst & (_ & _ & _ & Hex) & ->)];
    rewrite run_app, (poll_rounds_run n client IoScheduled t0 eq_refl eq_refl);
    cbn [run]; unfold step at 1; cbn [io self caller trace]; rewrite Hst;
    unfold step at 1; cbn [io self caller trace].
  - replace (connected (set_error_state true (set_stream None client)))
      with false by reflexivity.
    unfold step at 1. cbn [io self caller trace].
    replace (error_state (set_error_state true (set_stream None client)))
      with true by reflexivity.
    eexists. split; [reflexivity|]. cbn [caller self trace].
    split; [reflexivity|]. split; [reflexivity|].
    assert (exits (repeat (EvSleep 100) n) = []) as Hsl
      by (clear; induction n; simpl; auto).
    split.
    + proj_app. rewrite Hex, Hsl. reflexivity.
    + rewrite !logged_app. simpl. rewrite app_comm_cons. apply last_snoc.
  - replace (connected (set_connected true
                          (set_job_queue [] (set_stream (Some st) client))))
      with true by reflexivity.
    eexists. split; [reflexivity|]. cbn [caller self trace].
    split; [reflexivity|]. split; [reflexivity|]. split; [reflexivity|].
    split; [reflexivity|].
    assert (exits (repeat (EvSleep 100) n) = []) as Hsl
      by (clear; induction n; simpl; auto).
    proj_app. rewrite Hex, Hsl. reflexivity.
Qed.
